(** * conc: hazard-pointer domain, handle and guard

    A shallow embedding of [src/hazard/domain.hpp] and
    [src/hazard/hazard_pointer.hpp].

    Every access to shared memory in the two headers is one atomic operation
    on a cell of the static array [m_acquire_list], on a client
    [std::atomic<T*>] or on the static [m_instance].  A member function is
    therefore embedded as a tree of such operations ([prog]); the functional
    part of the code (loops, tests, the private retire vector) is ordinary
    Rocq.  [exec] runs a tree against the shared state and lets the other
    threads act between any two operations; [run] is the run without
    interference. *)

From stdpp Require Import base numbers option list gmap.

Local Open Scope Z_scope.

(** ** Pointers and the reserved encodings *)

(** A [T*] is its [std::uintptr_t] value; pointers are 64 bits wide on the
    targets the code names (x86_64, aarch64). *)
Abbreviation ptr := Z (only parsing).

Definition uintptr_bits : Z := 64.

Definition uintptr_wrap (z : Z) : Z := z mod 2 ^ uintptr_bits.

Definition nullptr : ptr := 0.

(** [reserved::sentinel()]: [~static_cast<std::uintptr_t>(0)]. *)
Definition sentinel : ptr := uintptr_wrap (Z.lnot 0).

(** [reserved::reset()]: [~static_cast<std::uintptr_t>(0) - 1]. *)
Definition reset : ptr := uintptr_wrap (uintptr_wrap (Z.lnot 0) - 1).

(** The four logical states of a cell, read off its value. *)
Inductive cell_state := FREE | RESERVED | RESET | PROTECTING (p : ptr).

Definition state_of (v : ptr) : cell_state :=
  if v =? nullptr then FREE
  else if v =? sentinel then RESERVED
  else if v =? reset then RESET
  else PROTECTING v.

(** ** Shared memory and atomic operations *)

Inductive memory_order := relaxed | acquire | release | acq_rel | seq_cst.

Definition at_least_acquire (mo : memory_order) : bool :=
  match mo with
  | acquire | acq_rel | seq_cst => true
  | relaxed | release => false
  end.

(** [m_acquire_list] is the static cell array, [atomics] the client
    [std::atomic<T*>] objects (a source is named by its index) and
    [m_instance] the static routing pointer (a domain object is named by
    its address). *)
Record shared := {
  m_acquire_list : list ptr;
  atomics : list ptr;
  m_instance : option nat
}.

Definition set_cells (f : list ptr → list ptr) (st : shared) : shared :=
  {| m_acquire_list := f (m_acquire_list st);
     atomics := atomics st;
     m_instance := m_instance st |}.

Definition set_atomics (f : list ptr → list ptr) (st : shared) : shared :=
  {| m_acquire_list := m_acquire_list st;
     atomics := f (atomics st);
     m_instance := m_instance st |}.

Definition set_instance (d : option nat) (st : shared) : shared :=
  {| m_acquire_list := m_acquire_list st;
     atomics := atomics st;
     m_instance := d |}.

Inductive failure :=
  | aborted          (* std::abort() *)
  | assertion        (* assert(m_cell != nullptr) *)
  | dangling.        (* a reference to an object that does not exist *)

Inductive event :=
  | EvCellLoad (i : nat) (mo : memory_order) (v : ptr)
  | EvCellStore (i : nat) (v : ptr) (mo : memory_order)
  | EvCellCas (i : nat) (expected desired : ptr) (mo : memory_order) (ok : bool)
  | EvSrcLoad (a : nat) (mo : memory_order) (v : ptr)
  | EvInstanceLoad (d : option nat)
  | EvInstanceStore (d : nat)
  | EvDelete (p : ptr)
  | EvPause.

(** A computation over the shared memory: a tree whose nodes are the atomic
    operations and whose leaves are a result or a failure. *)
Inductive prog (A : Type) : Type :=
  | Ret (a : A)
  | Fail (f : failure)
  | CellLoad (i : nat) (mo : memory_order) (k : ptr → prog A)
  | CellStore (i : nat) (v : ptr) (mo : memory_order) (k : prog A)
  | CellCas (i : nat) (expected desired : ptr) (mo : memory_order)
      (k : bool → prog A)
  | SrcLoad (a : nat) (mo : memory_order) (k : ptr → prog A)
  | InstanceLoad (k : option nat → prog A)
  | InstanceStore (d : nat) (k : prog A)
  | Delete (p : ptr) (k : prog A)
  | Pause (k : prog A).

Arguments Ret {A} a.
Arguments Fail {A} f.
Arguments CellLoad {A} i mo k.
Arguments CellStore {A} i v mo k.
Arguments CellCas {A} i expected desired mo k.
Arguments SrcLoad {A} a mo k.
Arguments InstanceLoad {A} k.
Arguments InstanceStore {A} d k.
Arguments Delete {A} p k.
Arguments Pause {A} k.

Fixpoint bind {A B} (p : prog A) (f : A → prog B) : prog B :=
  match p with
  | Ret a => f a
  | Fail e => Fail e
  | CellLoad i mo k => CellLoad i mo (λ v, bind (k v) f)
  | CellStore i v mo k => CellStore i v mo (bind k f)
  | CellCas i e d mo k => CellCas i e d mo (λ b, bind (k b) f)
  | SrcLoad a mo k => SrcLoad a mo (λ v, bind (k v) f)
  | InstanceLoad k => InstanceLoad (λ d, bind (k d) f)
  | InstanceStore d k => InstanceStore d (bind k f)
  | Delete p k => Delete p (bind k f)
  | Pause k => Pause (bind k f)
  end.

#[global] Instance prog_ret : MRet prog := @Ret.
#[global] Instance prog_bind : MBind prog := λ A B f p, bind p f.

(** The single operations, as computations. *)
Definition cell_load (i : nat) (mo : memory_order) : prog ptr :=
  CellLoad i mo Ret.
Definition cell_store (i : nat) (v : ptr) (mo : memory_order) : prog unit :=
  CellStore i v mo (Ret tt).
Definition compare_exchange_strong (i : nat) (expected desired : ptr)
    (mo : memory_order) : prog bool :=
  CellCas i expected desired mo Ret.
Definition src_load (a : nat) (mo : memory_order) : prog ptr :=
  SrcLoad a mo Ret.
Definition instance_load : prog (option nat) := InstanceLoad Ret.
Definition instance_store (d : nat) : prog unit := InstanceStore d (Ret tt).
Definition delete (p : ptr) : prog unit := Delete p (Ret tt).
Definition pause : prog unit := Pause (Ret tt).

Inductive outcome (A : Type) : Type :=
  | Done (a : A)
  | Failed (f : failure).

Arguments Done {A} a.
Arguments Failed {A} f.

(** What the other threads do to the shared memory between two operations
    of this thread: one transformer per operation, applied just before it.
    When the list is used up nobody interferes any more. *)
Definition interference := list (shared → shared).

Definition interfere (env : interference) (st : shared) : shared :=
  match env with
  | [] => st
  | f :: _ => f st
  end.

(** A trace: the operations a run performed, each with the shared memory
    right after it. *)
Definition trace := list (event * shared).

Definition emit {A} (e : event) (st : shared) (r : outcome A * shared * trace)
    : outcome A * shared * trace :=
  (r.1.1, r.1.2, (e, st) :: r.2).

(** The same for a whole trace in front of the rest of a run. *)
Definition prepend {A} (tr : trace) (r : outcome A * shared * trace)
    : outcome A * shared * trace :=
  (r.1.1, r.1.2, tr ++ r.2).

Fixpoint exec {A} (p : prog A) (env : interference) (st : shared)
    : outcome A * shared * trace :=
  match p with
  | Ret a => (Done a, st, [])
  | Fail f => (Failed f, st, [])
  | CellLoad i mo k =>
      let st := interfere env st in
      match m_acquire_list st !! i with
      | Some v => emit (EvCellLoad i mo v) st (exec (k v) (tail env) st)
      | None => (Failed dangling, st, [])
      end
  | CellStore i v mo k =>
      let st := interfere env st in
      if decide (i < length (m_acquire_list st))%nat then
        let st := set_cells (λ l, <[i:=v]> l) st in
        emit (EvCellStore i v mo) st (exec k (tail env) st)
      else (Failed dangling, st, [])
  | CellCas i e d mo k =>
      let st := interfere env st in
      match m_acquire_list st !! i with
      | Some v =>
          if v =? e then
            let st := set_cells (λ l, <[i:=d]> l) st in
            emit (EvCellCas i e d mo true) st (exec (k true) (tail env) st)
          else emit (EvCellCas i e d mo false) st (exec (k false) (tail env) st)
      | None => (Failed dangling, st, [])
      end
  | SrcLoad a mo k =>
      let st := interfere env st in
      match atomics st !! a with
      | Some v => emit (EvSrcLoad a mo v) st (exec (k v) (tail env) st)
      | None => (Failed dangling, st, [])
      end
  | InstanceLoad k =>
      let st := interfere env st in
      emit (EvInstanceLoad (m_instance st)) st
           (exec (k (m_instance st)) (tail env) st)
  | InstanceStore d k =>
      let st := set_instance (Some d) (interfere env st) in
      emit (EvInstanceStore d) st (exec k (tail env) st)
  | Delete p k =>
      let st := interfere env st in
      emit (EvDelete p) st (exec k (tail env) st)
  | Pause k =>
      let st := interfere env st in
      emit EvPause st (exec k (tail env) st)
  end.

(** The run in which no other thread acts. *)
Definition run {A} (p : prog A) (st : shared) : outcome A * shared * trace :=
  exec p [] st.

(** The operations of a trace, without the memory. *)
Definition events (tr : trace) : list event := tr.*1.

(** The objects a run deleted, in order. *)
Definition deleted (tr : trace) : list ptr :=
  omap (λ e, match e.1 with EvDelete p => Some p | _ => None end) tr.

(** What the first operation of [p] does to the shared memory when it runs
    next: the step another thread contributes to an interleaving. *)
Definition first_op {A} (p : prog A) (st : shared) : shared :=
  match p with
  | CellStore i v _ _ => set_cells (λ l, <[i:=v]> l) st
  | CellCas i e d _ _ =>
      if bool_decide (m_acquire_list st !! i = Some e)
      then set_cells (λ l, <[i:=d]> l) st else st
  | InstanceStore d _ => set_instance (Some d) st
  | _ => st
  end.

(** ** The domain ([hazard_domain<T, max_objects>]) *)

(** [retire_buffer]: the thread's private retire vector and the domain it
    flushes against.  [buffer.reserve(max_objects * 3)] only sets the
    capacity and leaves the contents empty. *)
Record retire_buffer := {
  buffer : list ptr;
  domain_ref : option nat
}.

Definition retire_buffer_ctor (d : option nat) : retire_buffer :=
  {| buffer := []; domain_ref := d |}.

(** A handle: [m_cell] points at one cell of the array (its index) or is
    [nullptr]. *)
Record hazard_pointer := { m_cell : option nat }.

(** A guard: a reference to the handle (the handle object's address) and
    the cached address. *)
Record guard := { m_hp : nat; m_ptr : ptr }.

Section hazard_domain.

(** The template parameter: the cardinality of the cell array. *)
Variable max_objects : nat.

(** [hazard_domain()]: [if (!m_instance) m_instance = this;] *)
Definition hazard_domain_ctor (this : nat) : prog unit :=
  inst ← instance_load;
  match inst with
  | None => instance_store this
  | Some _ => mret tt
  end.

(** The body of [for (auto& cell : m_acquire_list)] in [capture_cell],
    over the cells still to visit; [std::abort()] after the last one. *)
Fixpoint capture_loop (cells : list nat) : prog nat :=
  match cells with
  | [] => Fail aborted
  | cell :: rest =>
      v ← cell_load cell relaxed;
      if v =? nullptr then
        ok ← compare_exchange_strong cell nullptr sentinel acq_rel;
        if ok : bool then mret cell else capture_loop rest
      else capture_loop rest
  end.

Definition capture_cell : prog nat := capture_loop (seq 0 max_objects).

Definition release_cell (cell : option nat) : prog unit :=
  match cell with
  | Some c => cell_store c nullptr release
  | None => mret tt
  end.

(** The test of [scan_for_hazard] on one loaded value. *)
Definition is_hazard (hazard p : ptr) : bool :=
  negb (hazard =? nullptr) && negb (hazard =? sentinel)
  && negb (hazard =? reset) && (hazard =? p).

Fixpoint scan_loop (cells : list nat) (p : ptr) : prog bool :=
  match cells with
  | [] => mret false
  | cell :: rest =>
      hazard ← cell_load cell seq_cst;
      if is_hazard hazard p then mret true else scan_loop rest p
  end.

Definition scan_for_hazard (p : ptr) : prog bool :=
  scan_loop (seq 0 max_objects) p.

(** The [while (it != end)] loop of [delete_hazards], followed by
    [buffer.erase(end, buffer.end())].  [it] and [end] are positions in
    the vector; the loop is written by recursion on the distance
    [dist = end - it], which each round lowers by one ([++it] or
    [--end]), so [end] is [it + dist] throughout. *)
Fixpoint delete_hazards_from (dist : nat) (buffer : list ptr) (it : nat)
    : prog (list ptr) :=
  match dist with
  | O => mret (take it buffer)
  | S dist' =>
      match buffer !! it with
      | None => Fail dangling
      | Some p =>
          hazard ← scan_for_hazard p;
          if hazard : bool then delete_hazards_from dist' buffer (S it)
          else
            delete p;;
            let end_ := (it + dist')%nat in
            if decide (it ≠ end_) then
              match buffer !! end_ with
              | None => Fail dangling
              | Some q => delete_hazards_from dist' (<[it:=q]> buffer) it
              end
            else delete_hazards_from dist' buffer it
      end
  end.

Definition delete_hazards (buffer : list ptr) : prog (list ptr) :=
  delete_hazards_from (length buffer) buffer 0.

(** [2 * max_objects] in [std::size_t]. *)
Definition retire_threshold : Z :=
  uintptr_wrap (2 * Z.of_nat max_objects).

(** [tl_retires()]: the [thread_local] is built at the thread's first
    call, from the [m_instance] read then. *)
Definition tl_retires (tl : option retire_buffer) : prog retire_buffer :=
  match tl with
  | Some rb => mret rb
  | None => d ← instance_load; mret (retire_buffer_ctor d)
  end.

(** [retire(data)], on the thread whose thread-local slot is [tl]; the
    result is the slot afterwards. *)
Definition retire (data : ptr) (tl : option retire_buffer)
    : prog (option retire_buffer) :=
  rb ← tl_retires tl;
  let retires := buffer rb ++ [data] in
  if Z.of_nat (length retires) >=? retire_threshold then
    retires' ← delete_hazards retires;
    mret (Some {| buffer := retires'; domain_ref := domain_ref rb |})
  else mret (Some {| buffer := retires; domain_ref := domain_ref rb |}).

(** [~retire_buffer()] *)
Definition retire_buffer_dtor (rb : retire_buffer) : prog unit :=
  if bool_decide (is_Some (domain_ref rb)) && negb (bool_decide (buffer rb = []))
  then delete_hazards (buffer rb);; mret tt
  else mret tt.

(** Thread teardown destroys the [thread_local], if it was ever built. *)
Definition thread_exit (tl : option retire_buffer) : prog unit :=
  match tl with
  | Some rb => retire_buffer_dtor rb
  | None => mret tt
  end.

(** ** The handle ([hazard_pointer<T, domain>]) *)

Definition make_hazard_pointer : prog hazard_pointer :=
  cell ← capture_cell; mret {| m_cell := Some cell |}.

Definition hazard_pointer_retire (data : ptr) (tl : option retire_buffer)
    : prog (option retire_buffer) :=
  retire data tl.

Definition empty (hp : hazard_pointer) : prog bool :=
  match m_cell hp with
  | None => mret true
  | Some c =>
      p ← cell_load c relaxed;
      mret ((p =? nullptr) || (p =? reset))
  end.

(** [try_protect(ptr, src)]; the in-out [T*& ptr] is the second
    component of the result. *)
Definition try_protect (hp : hazard_pointer) (p : ptr) (src : nat)
    : prog (bool * ptr) :=
  match m_cell hp with
  | None => Fail assertion
  | Some c =>
      cell_store c p seq_cst;;
      current ← src_load src acquire;
      if current =? p then mret (true, p)
      else
        cell_store c reset release;;
        mret (false, current)
  end.

(** The [while (!try_protect(ptr, src))] loop of [protect]; [None] when
    [fuel] rounds all failed. *)
Fixpoint protect_loop (fuel : nat) (hp : hazard_pointer) (p : ptr)
    (src : nat) : prog (option ptr) :=
  match fuel with
  | O => mret None
  | S fuel' =>
      r ← try_protect hp p src;
      if fst (r : bool * Z) then mret (Some (snd r))
      else pause;; protect_loop fuel' hp (snd r) src
  end.

Definition protect (fuel : nat) (hp : hazard_pointer) (src : nat)
    : prog (option ptr) :=
  p ← src_load src relaxed;
  protect_loop fuel hp p src.

Definition reset_protection (hp : hazard_pointer) : prog unit :=
  match m_cell hp with
  | None => Fail assertion
  | Some c => cell_store c reset release
  end.

(** [reset_protection(T* ptr)] *)
Definition reset_protection_ptr (hp : hazard_pointer) (p : ptr) : prog unit :=
  match m_cell hp with
  | None => Fail assertion
  | Some c => cell_store c p seq_cst
  end.

(** [reset_protection(std::nullptr_t)] *)
Definition reset_protection_nullptr (hp : hazard_pointer) : prog unit :=
  reset_protection hp.

(** Handle objects live at addresses; the members below that change
    [m_cell] or compare addresses work on the map of the thread's handle
    objects. *)

(** [hazard_pointer(hazard_pointer&& hp)], building the object at [this]. *)
Definition move_ctor (this hp : nat) (hs : gmap nat hazard_pointer)
    : prog (gmap nat hazard_pointer) :=
  match hs !! hp with
  | None => Fail dangling
  | Some h =>
      mret (<[this := {| m_cell := m_cell h |}]>
              (<[hp := {| m_cell := None |}]> hs))
  end.

(** [operator=(hazard_pointer&& hp)] *)
Definition move_assign (this hp : nat) (hs : gmap nat hazard_pointer)
    : prog (gmap nat hazard_pointer) :=
  if decide (this ≠ hp) then
    match hs !! this, hs !! hp with
    | Some t, Some h =>
        (if bool_decide (is_Some (m_cell t)) then release_cell (m_cell t)
         else mret tt);;
        mret (<[this := {| m_cell := m_cell h |}]>
                (<[hp := {| m_cell := None |}]> hs))
    | _, _ => Fail dangling
    end
  else mret hs.

(** [~hazard_pointer()]; the object is gone afterwards. *)
Definition hazard_pointer_dtor (this : nat) (hs : gmap nat hazard_pointer)
    : prog (gmap nat hazard_pointer) :=
  match hs !! this with
  | None => Fail dangling
  | Some t =>
      (if bool_decide (is_Some (m_cell t)) then release_cell (m_cell t)
       else mret tt);;
      mret (base.delete this hs)
  end.

Definition swap (this t : nat) (hs : gmap nat hazard_pointer)
    : prog (gmap nat hazard_pointer) :=
  match hs !! this, hs !! t with
  | Some a, Some b => mret (<[this := b]> (<[t := a]> hs))
  | _, _ => Fail dangling
  end.

(** ** The guard *)

(** [guard(hp, src)]: [m_hp(hp), m_ptr(hp.protect(src))]. *)
Definition guard_ctor (fuel : nat) (hp : nat) (src : nat)
    (hs : gmap nat hazard_pointer) : prog (option guard) :=
  match hs !! hp with
  | None => Fail dangling
  | Some h =>
      r ← protect fuel h src;
      match r with
      | Some p => mret (Some {| m_hp := hp; m_ptr := p |})
      | None => mret None
      end
  end.

(** [~guard()] *)
Definition guard_dtor (g : guard) (hs : gmap nat hazard_pointer) : prog unit :=
  match hs !! m_hp g with
  | None => Fail dangling
  | Some h => reset_protection h
  end.

Definition get (g : guard) : ptr := m_ptr g.
(** [operator->] *)
Definition arrow (g : guard) : ptr := m_ptr g.
(** [operator*]: the object at the cached address. *)
Definition deref (g : guard) : ptr := m_ptr g.
(** [operator bool] *)
Definition to_bool (g : guard) : bool := negb (m_ptr g =? nullptr).

End hazard_domain.

(** ** Scopes *)

(** How a block is left. *)
Inductive scope_exit (A : Type) : Type :=
  | normal (a : A)
  | early_return (a : A)
  | thrown.

Arguments normal {A} a.
Arguments early_return {A} a.
Arguments thrown {A}.

(** A block that declares a [guard] over the handle at [hp] and the source
    [src] and then runs [body]: the guard is built on entry and, being an
    automatic object, destroyed when the block is left, however it is
    left.  [None] when [protect] is still spinning after [fuel] rounds. *)
Definition guarded_scope {A} (fuel : nat) (hp src : nat)
    (hs : gmap nat hazard_pointer) (body : guard → prog (scope_exit A))
    : prog (option (guard * scope_exit A)) :=
  g ← guard_ctor fuel hp src hs;
  match g with
  | None => mret None
  | Some g =>
      r ← body g;
      guard_dtor g hs;;
      mret (Some (g, r))
  end.

(** [n] captures in a row, nothing released in between: the handles that
    are live together. *)
Fixpoint capture_many (max_objects n : nat) : prog (list nat) :=
  match n with
  | O => mret []
  | S n' =>
      cells ← capture_many max_objects n';
      cell ← capture_cell max_objects;
      mret (cells ++ [cell])
  end.

(** The loads of a sweep that starts at cell [k] and reads the values [vs]. *)
Definition sweep_loads (st : shared) (k : nat) (vs : list ptr) : trace :=
  imap (λ j v, (EvCellLoad (k + j) relaxed v, st)) vs.

Arguments sweep_loads : simpl never.

(** The cell array has a fixed cardinality: whatever the other threads do,
    they do not change its length. *)
Definition fixed_array (env : interference) : Prop :=
  Forall (λ f : shared → shared,
            ∀ s, length (m_acquire_list (f s)) = length (m_acquire_list s)) env.

(** The shape of one sweep of [capture_cell] over the cells [cells]: each
    cell is loaded once, in order; a cell read as FREE is followed by one
    CAS to the sentinel; the sweep stops at the first CAS that succeeds and
    claims that cell, and claims nothing when it runs off the end. *)
Inductive sweep_shape : list nat → list event → option nat → Prop :=
  | sweep_end : sweep_shape [] [] None
  | sweep_skip c rest v evs r :
      v ≠ nullptr →
      sweep_shape rest evs r →
      sweep_shape (c :: rest) (EvCellLoad c relaxed v :: evs) r
  | sweep_lost c rest evs r :
      sweep_shape rest evs r →
      sweep_shape (c :: rest)
        (EvCellLoad c relaxed nullptr ::
         EvCellCas c nullptr sentinel acq_rel false :: evs) r
  | sweep_claim c rest :
      sweep_shape (c :: rest)
        [EvCellLoad c relaxed nullptr;
         EvCellCas c nullptr sentinel acq_rel true] (Some c).

Definition claimed (out : outcome nat) : option nat :=
  match out with
  | Done i => Some i
  | Failed _ => None
  end.

(** What a reclamation scan looks for: some cell holds exactly the address
    [p], and [p] is none of the three reserved encodings, so that cell is
    in the PROTECTING state. *)
Definition holds_hazard (cells : list ptr) (p : ptr) : Prop :=
  p ∈ cells ∧ p ≠ nullptr ∧ p ≠ sentinel ∧ p ≠ reset.

#[global] Instance holds_hazard_dec cells p : Decision (holds_hazard cells p).
Proof. unfold holds_hazard. apply _. Defined.

(** Removal by swapping with the last element: position [i] takes the last
    element of the queue and the queue loses its last position. *)
Definition swap_remove (i : nat) (q : list ptr) : list ptr :=
  match last q with
  | Some x => take (length q - 1) (<[i:=x]> q)
  | None => q
  end.

(** The reclamation pass in the words of its description: one walk over the
    queue from position [i]; an entry that is still hazarded is kept and
    the walk moves on, any other entry is destroyed and swap-removed, and
    the walk looks at the same position again.  The result is the queue
    that remains and the objects destroyed, in order. *)
Fixpoint reclaim_pass (hazarded : ptr → bool) (fuel : nat) (q : list ptr)
    (i : nat) : list ptr * list ptr :=
  match fuel with
  | O => (q, [])
  | S fuel' =>
      match q !! i with
      | None => (q, [])
      | Some p =>
          if hazarded p then reclaim_pass hazarded fuel' q (S i)
          else
            let r := reclaim_pass hazarded fuel' (swap_remove i q) i in
            (r.1, p :: r.2)
      end
  end.

(** A thread that retires the objects [ps] one after the other. *)
Fixpoint retire_all (max_objects : nat) (ps : list ptr)
    (tl : option retire_buffer) : prog (option retire_buffer) :=
  match ps with
  | [] => mret tl
  | p :: ps' =>
      tl' ← retire max_objects p tl;
      retire_all max_objects ps' tl'
  end.

(** The thread's retire buffer as [tl_retires()] hands it out: the one the
    thread already has, or a new one bound to the current [m_instance]. *)
Definition current_buffer (st : shared) (tl : option retire_buffer)
    : retire_buffer :=
  match tl with
  | Some rb => rb
  | None => retire_buffer_ctor (m_instance st)
  end.

(** What building the thread-local costs: one read of [m_instance], and
    only at the thread's first [retire]. *)
Definition tl_init (st : shared) (tl : option retire_buffer) : trace :=
  match tl with
  | Some _ => []
  | None => [(EvInstanceLoad (m_instance st), st)]
  end.

(** What a handle's destructor or a move-assignment does to the cells on
    account of the cell [cell] the handle owned before. *)
Definition released (cell : option nat) (st : shared) : shared :=
  match cell with
  | Some c => set_cells (λ l, <[c:=nullptr]> l) st
  | None => st
  end.

Definition release_trace (cell : option nat) (st : shared) : trace :=
  match cell with
  | Some c => [(EvCellStore c nullptr release, released cell st)]
  | None => []
  end.

Definition owns_valid (cell : option nat) (st : shared) : Prop :=
  ∀ c, cell = Some c → (c < length (m_acquire_list st))%nat.

(** The other threads leave the address [p] in cell [c]: whoever
    published it there keeps it published. *)
Definition keeps_published (c : nat) (p : ptr) (env : interference) : Prop :=
  Forall (λ f : shared → shared,
            ∀ s, m_acquire_list s !! c = Some p →
                 m_acquire_list (f s) !! c = Some p) env.

(** The other threads do not destroy the source [src]. *)
Definition source_alive (src : nat) (env : interference) : Prop :=
  Forall (λ f : shared → shared,
            ∀ s, is_Some (atomics s !! src) → is_Some (atomics (f s) !! src))
         env.

(** The loads of a scan that starts at cell [k] and reads the values [vs]. *)
Definition scan_loads (k : nat) (vs : list ptr) : list event :=
  imap (λ j v, EvCellLoad (k + j) seq_cst v) vs.

Arguments scan_loads : simpl never.

(** Every load in the trace returned what the cell held at that moment. *)
Definition loads_observed (tr : trace) : Prop :=
  Forall (λ es : event * shared,
            match es.1 with
            | EvCellLoad i _ v => m_acquire_list es.2 !! i = Some v
            | _ => True
            end) tr.

(** A trace in which this thread only read cells and deleted objects. *)
Definition reads_and_deletes (tr : trace) : Prop :=
  Forall (λ es : event * shared,
            match es.1 with
            | EvCellLoad _ seq_cst _ | EvDelete _ => True
            | _ => False
            end) tr.

(** Cell [c] holds something other than null. *)
Definition nonnull_at (c : nat) (s : shared) : Prop :=
  ∃ v, m_acquire_list s !! c = Some v ∧ v ≠ nullptr.

(** The other threads never make cell [c] null: its owner is the only one
    who could, and does not. *)
Definition keeps_nonnull (c : nat) (env : interference) : Prop :=
  Forall (λ f : shared → shared, ∀ s, nonnull_at c s → nonnull_at c (f s)) env.

(** The other threads do not write cell [c]: a cell is written by its
    owner only. *)
Definition owned_cell (c : nat) (env : interference) : Prop :=
  Forall (λ f : shared → shared,
            ∀ s, m_acquire_list (f s) !! c = m_acquire_list s !! c) env.

(** The other threads never put the address [p] into a cell. *)
Definition never_published (p : ptr) (env : interference) : Prop :=
  Forall (λ f : shared → shared,
            ∀ s, p ∉ m_acquire_list s → p ∉ m_acquire_list (f s)) env.

(** * Properties *)

(** ** Running computations *)

Lemma drop_S_tail {A} (n : nat) (l : list A) : drop (S n) l = drop n (tail l).
Proof. destruct l; simpl; [by rewrite drop_nil|done]. Qed.

Lemma tail_drop {A} (n : nat) (l : list A) : tail (drop n l) = drop (S n) l.
Proof.
  revert l; induction n as [|n IH]; intros [|x l]; simpl; done.
Qed.

Lemma exec_bind {A B} (p : prog A) (f : A → prog B) env st :
  exec (p ≫= f) env st =
    match exec p env st with
    | (Done a, st', tr) => prepend tr (exec (f a) (drop (length tr) env) st')
    | (Failed e, st', tr) => (Failed e, st', tr)
    end.
Proof.
  unfold mbind, prog_bind, prepend.
  revert env st; induction p as
    [a|e|i mo k IH|i v mo k IH|i e d mo k IH|a mo k IH|k IH|d k IH|q k IH|k IH];
    intros env st; simpl.
  - rewrite drop_0. by destruct (exec (f a) env st) as [[o s] t].
  - done.
  - destruct (m_acquire_list (interfere env st) !! i) as [v|]; [|done].
    rewrite IH. unfold emit.
    destruct (exec (k v) _ _) as [[[a|e] s] t]; simpl; by rewrite ?drop_S_tail.
  - case_decide; [|done].
    rewrite IH. unfold emit.
    destruct (exec k _ _) as [[[a|e] s] t]; simpl; by rewrite ?drop_S_tail.
  - destruct (m_acquire_list (interfere env st) !! i) as [v|]; [|done].
    destruct (v =? e); rewrite IH; unfold emit;
      destruct (exec (k _) _ _) as [[[a|e'] s] t]; simpl;
      by rewrite ?drop_S_tail.
  - destruct (atomics (interfere env st) !! a) as [v|]; [|done].
    rewrite IH. unfold emit.
    destruct (exec (k v) _ _) as [[[x|e] s] t]; simpl; by rewrite ?drop_S_tail.
  - rewrite IH. unfold emit.
    destruct (exec (k _) _ _) as [[[x|e] s] t]; simpl; by rewrite ?drop_S_tail.
  - rewrite IH. unfold emit.
    destruct (exec k _ _) as [[[x|e] s] t]; simpl; by rewrite ?drop_S_tail.
  - rewrite IH. unfold emit.
    destruct (exec k _ _) as [[[x|e] s] t]; simpl; by rewrite ?drop_S_tail.
  - rewrite IH. unfold emit.
    destruct (exec k _ _) as [[[x|e] s] t]; simpl; by rewrite ?drop_S_tail.
Qed.

Lemma run_bind {A B} (p : prog A) (f : A → prog B) st :
  run (p ≫= f) st =
    match run p st with
    | (Done a, st', tr) => prepend tr (run (f a) st')
    | (Failed e, st', tr) => (Failed e, st', tr)
    end.
Proof.
  unfold run. rewrite exec_bind.
  destruct (exec p [] st) as [[[a|e] s] t]; [|done]. by rewrite drop_nil.
Qed.

Lemma deleted_app (t1 t2 : trace) : deleted (t1 ++ t2) = deleted t1 ++ deleted t2.
Proof. apply omap_app. Qed.

Lemma deleted_cons_delete p st (tr : trace) :
  deleted ((EvDelete p, st) :: tr) = p :: deleted tr.
Proof. reflexivity. Qed.

Lemma events_app (t1 t2 : trace) : events (t1 ++ t2) = events t1 ++ events t2.
Proof. apply fmap_app. Qed.

(** One equation per operation: how a computation that starts with it runs. *)
Section steps.
Context {B : Type}.
Implicit Types (env : interference) (st : shared).

Lemma exec_cell_load i mo (f : ptr → prog B) env st :
  exec (cell_load i mo ≫= f) env st =
    match m_acquire_list (interfere env st) !! i with
    | Some v =>
        emit (EvCellLoad i mo v) (interfere env st)
             (exec (f v) (tail env) (interfere env st))
    | None => (Failed dangling, interfere env st, [])
    end.
Proof. reflexivity. Qed.

Lemma exec_cell_store i v mo (f : unit → prog B) env st :
  exec (cell_store i v mo ≫= f) env st =
    if decide (i < length (m_acquire_list (interfere env st)))%nat then
      emit (EvCellStore i v mo)
           (set_cells (λ l, <[i:=v]> l) (interfere env st))
           (exec (f tt) (tail env)
                 (set_cells (λ l, <[i:=v]> l) (interfere env st)))
    else (Failed dangling, interfere env st, []).
Proof. reflexivity. Qed.

Lemma exec_cas i e d mo (f : bool → prog B) env st :
  exec (compare_exchange_strong i e d mo ≫= f) env st =
    match m_acquire_list (interfere env st) !! i with
    | Some v =>
        if v =? e then
          emit (EvCellCas i e d mo true)
               (set_cells (λ l, <[i:=d]> l) (interfere env st))
               (exec (f true) (tail env)
                     (set_cells (λ l, <[i:=d]> l) (interfere env st)))
        else
          emit (EvCellCas i e d mo false) (interfere env st)
               (exec (f false) (tail env) (interfere env st))
    | None => (Failed dangling, interfere env st, [])
    end.
Proof. reflexivity. Qed.

Lemma exec_src_load a mo (f : ptr → prog B) env st :
  exec (src_load a mo ≫= f) env st =
    match atomics (interfere env st) !! a with
    | Some v =>
        emit (EvSrcLoad a mo v) (interfere env st)
             (exec (f v) (tail env) (interfere env st))
    | None => (Failed dangling, interfere env st, [])
    end.
Proof. reflexivity. Qed.

Lemma exec_instance_load (f : option nat → prog B) env st :
  exec (instance_load ≫= f) env st =
    emit (EvInstanceLoad (m_instance (interfere env st))) (interfere env st)
         (exec (f (m_instance (interfere env st))) (tail env)
               (interfere env st)).
Proof. reflexivity. Qed.

Lemma exec_delete p (f : unit → prog B) env st :
  exec (delete p ≫= f) env st =
    emit (EvDelete p) (interfere env st)
         (exec (f tt) (tail env) (interfere env st)).
Proof. reflexivity. Qed.

Lemma exec_pause (f : unit → prog B) env st :
  exec (pause ≫= f) env st =
    emit EvPause (interfere env st)
         (exec (f tt) (tail env) (interfere env st)).
Proof. reflexivity. Qed.

Lemma exec_ret {A} (a : A) (f : A → prog B) env st :
  exec (mret a ≫= f) env st = exec (f a) env st.
Proof. reflexivity. Qed.

End steps.

Lemma set_cells_id st : set_cells (λ l, l) st = st.
Proof. by destruct st. Qed.

Lemma cells_set_cells f st : m_acquire_list (set_cells f st) = f (m_acquire_list st).
Proof. done. Qed.

(** ** C2: capture *)

Lemma sweep_loads_cons st k v vs :
  sweep_loads st k (v :: vs) =
    (EvCellLoad k relaxed v, st) :: sweep_loads st (S k) vs.
Proof.
  unfold sweep_loads. rewrite imap_cons, Nat.add_0_r. f_equal.
  apply imap_ext. intros j x _. simpl. do 2 f_equal. lia.
Qed.

Lemma capture_loop_run (st : shared) (n k : nat) :
  length (m_acquire_list st) = (k + n)%nat →
  run (capture_loop (seq k n)) st =
    match list_find (λ v, v = nullptr) (drop k (m_acquire_list st)) with
    | Some (i, _) =>
        (Done (k + i)%nat,
         set_cells (λ l, <[(k + i)%nat := sentinel]> l) st,
         sweep_loads st k (take (S i) (drop k (m_acquire_list st))) ++
         [(EvCellCas (k + i) nullptr sentinel acq_rel true,
           set_cells (λ l, <[(k + i)%nat := sentinel]> l) st)])
    | None =>
        (Failed aborted, st, sweep_loads st k (drop k (m_acquire_list st)))
    end.
Proof.
  revert k; induction n as [|n IH]; intros k Hlen.
  - rewrite drop_ge by lia. done.
  - destruct (lookup_lt_is_Some_2 (m_acquire_list st) k) as [v Hv]; [lia|].
    rewrite (drop_S _ _ _ Hv). cbn [seq capture_loop]. unfold run.
    rewrite exec_cell_load. cbn [interfere tail]. rewrite Hv.
    cbn [list_find]. case_decide as Hnull.
    + subst v. cbn [Z.eqb nullptr]. rewrite exec_cas. cbn [interfere tail].
      rewrite Hv. cbn [Z.eqb nullptr fmap option_fmap option_map].
      rewrite Nat.add_0_r. cbn [take]. rewrite sweep_loads_cons. done.
    + destruct (v =? nullptr) eqn:E; [apply Z.eqb_eq in E; done|].
      fold (run (capture_loop (seq (S k) n)) st).
      rewrite IH by lia.
      destruct (list_find _ (drop (S k) _)) as [[i x]|]; cbn.
      * rewrite sweep_loads_cons. unfold emit. cbn.
        replace (k + S i)%nat with (S (k + i)) by lia. done.
      * rewrite sweep_loads_cons. done.
Qed.

Lemma sentinel_not_null : sentinel ≠ nullptr.
Proof. by vm_compute. Qed.

Lemma reset_not_null : reset ≠ nullptr.
Proof. by vm_compute. Qed.

Lemma reset_not_sentinel : reset ≠ sentinel.
Proof. by vm_compute. Qed.

Lemma capture_cell_first_free (max_objects : nat) (st : shared) (i : nat) :
  length (m_acquire_list st) = max_objects →
  m_acquire_list st !! i = Some nullptr →
  (∀ j v, (j < i)%nat → m_acquire_list st !! j = Some v → v ≠ nullptr) →
  run (capture_cell max_objects) st =
    (Done i,
     set_cells (λ l, <[i:=sentinel]> l) st,
     sweep_loads st 0 (take (S i) (m_acquire_list st)) ++
     [(EvCellCas i nullptr sentinel acq_rel true,
       set_cells (λ l, <[i:=sentinel]> l) st)]).
Proof.
  intros Hlen Hi Hbefore. unfold capture_cell.
  rewrite capture_loop_run by done. rewrite drop_0.
  destruct (list_find _ _) as [[i' x]|] eqn:Hfind.
  - apply list_find_Some in Hfind as (Hi' & -> & Hmin).
    assert (i' = i) as ->; [|done].
    destruct (Nat.lt_total i' i) as [Hlt|[->|Hlt]]; [|done|].
    + by destruct (Hbefore _ _ Hlt Hi').
    + by destruct (Hmin _ _ Hi Hlt).
  - apply list_find_None in Hfind.
    rewrite Forall_lookup in Hfind. by destruct (Hfind _ _ Hi).
Qed.

Lemma capture_cell_exhausted (max_objects : nat) (st : shared) :
  length (m_acquire_list st) = max_objects →
  Forall (λ v, v ≠ nullptr) (m_acquire_list st) →
  run (capture_cell max_objects) st =
    (Failed aborted, st, sweep_loads st 0 (m_acquire_list st)).
Proof.
  intros Hlen Hall. unfold capture_cell.
  rewrite capture_loop_run by done. rewrite drop_0.
  assert (list_find (λ v, v = nullptr) (m_acquire_list st) = None) as ->;
    [by apply list_find_None|done].
Qed.

Lemma capture_many_run (max_objects : nat) (st : shared) (n : nat) :
  m_acquire_list st = replicate max_objects nullptr →
  (n ≤ max_objects)%nat →
  ∃ tr,
    run (capture_many max_objects n) st =
      (Done (seq 0 n),
       set_cells (λ _, replicate n sentinel ++
                       replicate (max_objects - n) nullptr) st,
       tr).
Proof.
  intros Hst. induction n as [|n IH]; intros Hn.
  - exists []. unfold run. simpl. rewrite Nat.sub_0_r.
    destruct st; simpl in *. by subst.
  - destruct IH as [tr IH]; [lia|].
    cbn [capture_many]. rewrite run_bind, IH, run_bind.
    erewrite (capture_cell_first_free _ _ n).
    + eexists. unfold run, prepend. simpl. f_equal. f_equal.
      * change (0%nat :: seq 1 n) with (seq 0 (S n)). by rewrite seq_S.
      * unfold set_cells. simpl. f_equal.
        replace (max_objects - n)%nat with (S (max_objects - S n)) by lia.
        rewrite insert_app_r_alt by (rewrite length_replicate; lia).
        rewrite length_replicate, Nat.sub_diag. simpl.
        by rewrite app_comm_cons, replicate_cons_app, <- (assoc_L (++)).
    + rewrite cells_set_cells, length_app, !length_replicate. lia.
    + rewrite cells_set_cells.
      rewrite lookup_app_r by (rewrite length_replicate; lia).
      rewrite length_replicate, Nat.sub_diag.
      apply lookup_replicate_2. lia.
    + intros j v Hj. rewrite cells_set_cells.
      rewrite lookup_app_l by (rewrite length_replicate; lia).
      intros [-> _]%lookup_replicate. apply sentinel_not_null.
Qed.

Lemma fixed_array_interfere env st :
  fixed_array env →
  length (m_acquire_list (interfere env st)) = length (m_acquire_list st).
Proof. destruct env as [|f env]; [done|]. intros H. by inversion H. Qed.

Lemma fixed_array_tail env : fixed_array env → fixed_array (tail env).
Proof. destruct env as [|f env]; [done|]. intros H. by inversion H. Qed.

Lemma fixed_array_drop n env : fixed_array env → fixed_array (drop n env).
Proof. apply Forall_drop. Qed.

Lemma capture_loop_shape (cells : list nat) env st out st' tr :
  fixed_array env →
  (∀ c, c ∈ cells → (c < length (m_acquire_list st))%nat) →
  exec (capture_loop cells) env st = (out, st', tr) →
  sweep_shape cells (events tr) (claimed out) ∧
  match out with
  | Done i => i ∈ cells ∧ m_acquire_list st' !! i = Some sentinel
  | Failed f => f = aborted
  end.
Proof.
  revert env st out st' tr; induction cells as [|c rest IH];
    intros env st out st' tr Henv Hin.
  - simpl. intros [= <- <- <-]. split; [constructor|done].
  - cbn [capture_loop]. rewrite exec_cell_load.
    pose proof (fixed_array_interfere env st Henv) as Hlen.
    pose proof (fixed_array_tail env Henv) as Htl.
    destruct (lookup_lt_is_Some_2 (m_acquire_list (interfere env st)) c)
      as [v Hv]; [rewrite Hlen; apply Hin; left|].
    rewrite Hv. destruct (v =? nullptr) eqn:E.
    + apply Z.eqb_eq in E as ->. rewrite exec_cas.
      pose proof (fixed_array_interfere (tail env) (interfere env st) Htl)
        as Hlen'.
      destruct (lookup_lt_is_Some_2
                  (m_acquire_list (interfere (tail env) (interfere env st))) c)
        as [w Hw]; [rewrite Hlen', Hlen; apply Hin; left|].
      rewrite Hw. destruct (w =? nullptr) eqn:E'.
      * simpl. intros [= <- <- <-]. split; [apply sweep_claim|].
        split; [left|]. rewrite cells_set_cells.
        apply list_lookup_insert_eq. by eapply lookup_lt_Some.
      * destruct (exec (capture_loop rest) _ _) as [[o s] t] eqn:Hrest.
        apply IH in Hrest as [Hshape Hout].
        -- unfold emit. simpl. intros [= <- <- <-]. split.
           ++ by apply sweep_lost.
           ++ destruct o; [|done]. destruct Hout. split; [by right|done].
        -- by do 2 apply fixed_array_tail.
        -- intros c' Hc'. rewrite Hlen', Hlen. apply Hin. by right.
    + destruct (exec (capture_loop rest) _ _) as [[o s] t] eqn:Hrest.
      apply IH in Hrest as [Hshape Hout].
      * unfold emit. simpl. intros [= <- <- <-]. split.
        -- apply sweep_skip; [|done]. by apply Z.eqb_neq.
        -- destruct o; [|done]. destruct Hout. split; [by right|done].
      * done.
      * intros c' Hc'. rewrite Hlen. apply Hin. by right.
Qed.

(** C2. [capture_cell] makes one sweep over the cell array in index order,
    tries a CAS from null to the sentinel on each cell it reads as FREE,
    returns the first cell whose CAS succeeds and aborts when the sweep
    claims none.  Alone, it claims the first FREE cell and aborts exactly
    when no cell is FREE; so on an array of [max_objects] FREE cells
    [max_objects] captures in a row succeed (cells 0, 1, ... in turn) and
    one more aborts. *)
Theorem capture_cell_spec (max_objects : nat) (st : shared) :
  length (m_acquire_list st) = max_objects →
  (∀ env out st' tr,
     fixed_array env →
     exec (capture_cell max_objects) env st = (out, st', tr) →
     sweep_shape (seq 0 max_objects) (events tr) (claimed out) ∧
     match out with
     | Done i => (i < max_objects)%nat ∧ m_acquire_list st' !! i = Some sentinel
     | Failed f => f = aborted
     end) ∧
  (∀ i,
     m_acquire_list st !! i = Some nullptr →
     (∀ j v, (j < i)%nat → m_acquire_list st !! j = Some v → v ≠ nullptr) →
     run (capture_cell max_objects) st =
       (Done i,
        set_cells (λ l, <[i:=sentinel]> l) st,
        sweep_loads st 0 (take (S i) (m_acquire_list st)) ++
        [(EvCellCas i nullptr sentinel acq_rel true,
          set_cells (λ l, <[i:=sentinel]> l) st)])) ∧
  (Forall (λ v, v ≠ nullptr) (m_acquire_list st) →
     run (capture_cell max_objects) st =
       (Failed aborted, st, sweep_loads st 0 (m_acquire_list st))) ∧
  (m_acquire_list st = replicate max_objects nullptr →
     ∃ st' tr,
       run (capture_many max_objects max_objects) st =
         (Done (seq 0 max_objects), st', tr) ∧
       m_acquire_list st' = replicate max_objects sentinel ∧
       run (capture_cell max_objects) st' =
         (Failed aborted, st', sweep_loads st' 0 (m_acquire_list st'))).
Proof.
  intros Hlen. split; [|split; [|split]].
  - intros env out st' tr Henv Hexec.
    apply capture_loop_shape in Hexec as [Hshape Hout]; [|done|].
    + split; [done|]. destruct out; [|done]. destruct Hout as [Hi ?].
      split; [|done]. apply elem_of_seq in Hi. lia.
    + intros c Hc%elem_of_seq. lia.
  - intros i. by apply capture_cell_first_free.
  - by apply capture_cell_exhausted.
  - intros Hfree.
    destruct (capture_many_run max_objects st max_objects Hfree) as [tr Hrun];
      [done|].
    eexists _, tr. split; [exact Hrun|].
    rewrite cells_set_cells, Nat.sub_diag, app_nil_r. split; [done|].
    apply capture_cell_exhausted.
    + by rewrite cells_set_cells, length_replicate.
    + rewrite cells_set_cells. apply Forall_replicate.
      apply sentinel_not_null.
Qed.

(** ** C3: try_protect *)

Lemma try_protect_exec (hp : hazard_pointer) (c : nat) (candidate : ptr)
    (src : nat) (env : interference) (st : shared) (current : ptr) :
  m_cell hp = Some c →
  fixed_array env →
  (c < length (m_acquire_list st))%nat →
  let published := set_cells (λ l, <[c:=candidate]> l) (interfere env st) in
  let reloaded := interfere (tail env) published in
  let cleared :=
    set_cells (λ l, <[c:=reset]> l) (interfere (tail (tail env)) reloaded) in
  atomics reloaded !! src = Some current →
  at_least_acquire acquire = true ∧
  exec (try_protect hp candidate src) env st =
    if current =? candidate then
      (Done (true, candidate), reloaded,
       [(EvCellStore c candidate seq_cst, published);
        (EvSrcLoad src acquire current, reloaded)])
    else
      (Done (false, current), cleared,
       [(EvCellStore c candidate seq_cst, published);
        (EvSrcLoad src acquire current, reloaded);
        (EvCellStore c reset release, cleared)]).
Proof.
  intros Hcell Henv Hc published reloaded cleared Hsrc. split; [done|].
  unfold try_protect. rewrite Hcell, exec_cell_store.
  pose proof (fixed_array_interfere env st Henv) as Hlen.
  rewrite decide_True by lia. fold published.
  rewrite exec_src_load. fold reloaded. rewrite Hsrc.
  destruct (current =? candidate) eqn:E.
  - apply Z.eqb_eq in E as ->. done.
  - rewrite exec_cell_store.
    pose proof (fixed_array_interfere (tail env) published
                  (fixed_array_tail _ Henv)) as Hlen1.
    pose proof (fixed_array_interfere (tail (tail env)) reloaded
                  (fixed_array_tail _ (fixed_array_tail _ Henv))) as Hlen2.
    rewrite decide_True; [done|].
    rewrite Hlen2. unfold reloaded. rewrite Hlen1. unfold published.
    rewrite cells_set_cells, length_insert. lia.
Qed.


(** ** C4: the reclamation pass *)

Lemma is_hazard_spec (h p : ptr) :
  is_hazard h p = true ↔ h = p ∧ p ≠ nullptr ∧ p ≠ sentinel ∧ p ≠ reset.
Proof.
  unfold is_hazard. rewrite !andb_true_iff, !negb_true_iff, !Z.eqb_neq, Z.eqb_eq.
  split; [intros [[[? ?] ?] ->]|intros [-> (? & ? & ?)]]; done.
Qed.

Lemma existsb_is_hazard (cells : list ptr) (p : ptr) :
  existsb (λ h, is_hazard h p) cells = bool_decide (holds_hazard cells p).
Proof.
  apply eq_true_iff_eq. rewrite bool_decide_eq_true, existsb_exists.
  unfold holds_hazard. split.
  - intros (h & Hin%list_elem_of_In & (-> & ?)%is_hazard_spec). done.
  - intros [Hin ?]. exists p. split; [by apply list_elem_of_In|].
    by apply is_hazard_spec.
Qed.

(** Alone, a scan reads cells and nothing else, and answers whether some
    cell among those it visits holds the address. *)
Lemma scan_loop_run (st : shared) (p : ptr) (n k : nat) :
  length (m_acquire_list st) = (k + n)%nat →
  ∃ tr,
    run (scan_loop (seq k n) p) st =
      (Done (existsb (λ h, is_hazard h p) (drop k (m_acquire_list st))), st, tr) ∧
    deleted tr = [].
Proof.
  revert k; induction n as [|n IH]; intros k Hlen.
  - exists []. rewrite drop_ge by lia. done.
  - destruct (lookup_lt_is_Some_2 (m_acquire_list st) k) as [h Hh]; [lia|].
    rewrite (drop_S _ _ _ Hh). cbn [seq scan_loop existsb]. unfold run.
    rewrite exec_cell_load. cbn [interfere tail]. rewrite Hh.
    destruct (is_hazard h p) eqn:E.
    + eexists. split; [reflexivity|done].
    + destruct (IH (S k)) as (tr & Hrun & Hdel); [lia|].
      fold (run (scan_loop (seq (S k) n) p) st). rewrite Hrun.
      eexists. split; [reflexivity|]. done.
Qed.

Lemma scan_for_hazard_run (max_objects : nat) (st : shared) (p : ptr) :
  length (m_acquire_list st) = max_objects →
  ∃ tr,
    run (scan_for_hazard max_objects p) st =
      (Done (bool_decide (holds_hazard (m_acquire_list st) p)), st, tr) ∧
    deleted tr = [].
Proof.
  intros Hlen. destruct (scan_loop_run st p max_objects 0 Hlen) as (tr & H & ?).
  exists tr. by rewrite <- existsb_is_hazard.
Qed.

Lemma swap_remove_take (buf : list ptr) (it d : nat) (x : ptr) :
  buf !! (it + d)%nat = Some x →
  swap_remove it (take (it + S d) buf) = take (it + d) (<[it:=x]> buf).
Proof.
  intros Hx. pose proof (lookup_lt_Some _ _ _ Hx) as Hlt.
  unfold swap_remove. rewrite last_lookup, length_take_le by lia.
  replace (pred (it + S d)) with (it + d)%nat by lia.
  rewrite lookup_take_lt, Hx by lia.
  replace (it + S d - 1)%nat with (it + d)%nat by lia.
  rewrite <- take_insert_lt by lia.
  rewrite take_take. f_equal. lia.
Qed.

(** The loop of [delete_hazards], run alone from position [it] with [dist]
    entries still to look at, is the pass of the description on the first
    [it + dist] entries of the vector. *)
Lemma delete_hazards_from_run (max_objects : nat) (st : shared)
    (dist : nat) (buf : list ptr) (it : nat) :
  length (m_acquire_list st) = max_objects →
  (it + dist ≤ length buf)%nat →
  let r := reclaim_pass (λ p, bool_decide (holds_hazard (m_acquire_list st) p))
             dist (take (it + dist) buf) it in
  ∃ tr,
    run (delete_hazards_from max_objects dist buf it) st = (Done r.1, st, tr) ∧
    deleted tr = r.2.
Proof.
  intros Hlen. revert buf it; induction dist as [|d IH]; intros buf it Hle.
  - exists []. simpl. by rewrite Nat.add_0_r.
  - destruct (lookup_lt_is_Some_2 buf it) as [p Hp]; [lia|].
    cbn [delete_hazards_from reclaim_pass]. rewrite Hp.
    rewrite lookup_take_lt, Hp by lia.
    destruct (scan_for_hazard_run max_objects st p Hlen) as (tr1 & Hscan & Hdel1).
    rewrite run_bind, Hscan.
    destruct (bool_decide (holds_hazard (m_acquire_list st) p)).
    + destruct (IH buf (S it)) as (tr & Hrun & Hdel); [lia|].
      rewrite Hrun. replace (S it + d)%nat with (it + S d)%nat in * by lia.
      eexists. split; [reflexivity|]. cbn. by rewrite deleted_app, Hdel1.
    + destruct (lookup_lt_is_Some_2 buf (it + d)) as [x Hx]; [lia|].
      rewrite (swap_remove_take _ _ _ x) by done.
      unfold run at 1. rewrite exec_delete. cbn [interfere tail].
      case_decide as Hne.
      * rewrite Hx.
        destruct (IH (<[it:=x]> buf) it) as (tr & Hrun & Hdel);
          [rewrite length_insert; lia|].
        fold (run (delete_hazards_from max_objects d (<[it:=x]> buf) it) st).
        rewrite Hrun. eexists. split; [reflexivity|].
        unfold emit. cbn [fst snd].
        by rewrite deleted_app, Hdel1, deleted_cons_delete, Hdel.
      * assert (d = 0%nat) as -> by lia.
        rewrite Nat.add_0_r, take_insert_ge by lia. cbn.
        eexists. split; [reflexivity|].
        unfold emit. cbn [fst snd]. by rewrite deleted_app, Hdel1.
Qed.

Lemma swap_remove_last_only (l1 : list ptr) (p : ptr) :
  swap_remove (length l1) (l1 ++ [p]) = l1.
Proof.
  unfold swap_remove. rewrite last_snoc, length_app. simpl.
  replace (length l1 + 1 - 1)%nat with (length l1) by lia.
  rewrite take_insert_ge by lia. by rewrite take_app_length.
Qed.

Lemma swap_remove_middle (l1 r : list ptr) (p x : ptr) :
  swap_remove (length l1) (l1 ++ p :: r ++ [x]) = l1 ++ x :: r.
Proof.
  unfold swap_remove.
  assert (last (l1 ++ p :: r ++ [x]) = Some x) as ->.
  { change (l1 ++ p :: r ++ [x]) with (l1 ++ (p :: r) ++ [x]).
    by rewrite (assoc_L (++)), last_snoc. }
  rewrite insert_app_r_alt, Nat.sub_diag by lia. cbn [insert list_insert].
  replace (length (l1 ++ p :: r ++ [x]) - 1)%nat
    with (length (l1 ++ x :: r))
    by (rewrite !length_app; simpl; rewrite length_app; simpl; lia).
  change (l1 ++ x :: r ++ [x]) with (l1 ++ (x :: r) ++ [x]).
  by rewrite (assoc_L (++)), take_app_length.
Qed.

Lemma drop_S_middle {A} (l1 rest : list A) (p : A) :
  drop (S (length l1)) (l1 ++ p :: rest) = rest.
Proof.
  rewrite cons_middle, (assoc_L (++)).
  apply drop_app_length'. rewrite length_app. simpl. lia.
Qed.

Section reclaim_pass.
Context (P : ptr → Prop) `{!∀ p, Decision (P p)}.

(** The pass keeps exactly the entries that satisfy the test and destroys
    exactly the others, each once; the order may change. *)
Lemma reclaim_pass_perm (fuel : nat) (q : list ptr) (i : nat) :
  (i ≤ length q)%nat →
  fuel = (length q - i)%nat →
  let r := reclaim_pass (λ p, bool_decide (P p)) fuel q i in
  r.1 ≡ₚ take i q ++ filter P (drop i q) ∧
  r.2 ≡ₚ filter (λ p, ¬ P p) (drop i q).
Proof.
  revert q i; induction fuel as [|fuel IH]; intros q i Hi Hfuel.
  - simpl. rewrite drop_ge, take_ge by lia. by rewrite app_nil_r.
  - destruct (lookup_lt_is_Some_2 q i) as [p Hp]; [lia|].
    cbn [reclaim_pass]. rewrite Hp.
    rewrite (drop_S _ _ _ Hp), !filter_cons.
    destruct (decide (P p)) as [HP|HP].
    + rewrite bool_decide_eq_true_2 by done.
      destruct (IH q (S i)) as [IH1 IH2]; [lia|lia|]. cbn zeta in *.
      rewrite decide_False by tauto.
      split; [|done]. rewrite IH1, (take_S_r _ _ _ Hp).
      by rewrite <- (assoc_L (++)).
    + rewrite bool_decide_eq_false_2 by done.
      rewrite decide_True by done. cbn zeta. cbn [fst snd].
      assert (take i (swap_remove i q) = take i q ∧
              drop i (swap_remove i q) ≡ₚ drop (S i) q ∧
              length (swap_remove i q) = (length q - 1)%nat) as (Ht & Hd & Hl).
      { assert (∃ l1 rest, q = l1 ++ p :: rest ∧ length l1 = i)
          as (l1 & rest & -> & <-).
        { exists (take i q), (drop (S i) q).
          split; [by rewrite take_drop_middle|]. rewrite length_take. lia. }
        rewrite take_app_length, drop_S_middle.
        destruct rest as [|y r _] using rev_ind.
        - rewrite swap_remove_last_only, take_ge, drop_ge by lia.
          rewrite length_app. simpl. split; [done|]. split; [done|lia].
        - rewrite swap_remove_middle, take_app_length, drop_app_length.
          split; [done|]. split; [by rewrite Permutation_app_comm|].
          rewrite !length_app. simpl. rewrite length_app. simpl. lia. }
      destruct (IH (swap_remove i q) i) as [IH1 IH2]; [lia|lia|].
      cbn zeta in *. rewrite IH1, IH2, Ht, Hd. done.
Qed.

End reclaim_pass.

Lemma delete_hazards_run (max_objects : nat) (st : shared) (buf : list ptr) :
  length (m_acquire_list st) = max_objects →
  let cells := m_acquire_list st in
  let pass :=
    reclaim_pass (λ p, bool_decide (holds_hazard cells p)) (length buf) buf 0 in
  ∃ tr,
    run (delete_hazards max_objects buf) st = (Done pass.1, st, tr) ∧
    deleted tr = pass.2 ∧
    pass.1 ≡ₚ filter (holds_hazard cells) buf ∧
    pass.2 ≡ₚ filter (λ p, ¬ holds_hazard cells p) buf.
Proof.
  intros Hlen cells pass.
  destruct (delete_hazards_from_run max_objects st (length buf) buf 0 Hlen)
    as (tr & Hrun & Hdel); [simpl; lia|].
  cbn [Nat.add] in Hrun, Hdel. rewrite take_ge in Hrun, Hdel by lia.
  exists tr. split; [exact Hrun|]. split; [exact Hdel|].
  destruct (reclaim_pass_perm (holds_hazard cells) (length buf) buf 0)
    as [H1 H2]; [lia|lia|].
  rewrite take_0, drop_0 in H1. rewrite drop_0 in H2. done.
Qed.


(** ** C7: retire *)

Lemma retire_threshold_small (max_objects : nat) :
  2 * Z.of_nat max_objects < 2 ^ uintptr_bits →
  retire_threshold max_objects = 2 * Z.of_nat max_objects.
Proof.
  intros H. unfold retire_threshold, uintptr_wrap. apply Z.mod_small. lia.
Qed.

Lemma run_tl_retires {B} (f : retire_buffer → prog B) st tl :
  run (tl_retires tl ≫= f) st =
    prepend (tl_init st tl) (run (f (current_buffer st tl)) st).
Proof.
  destruct tl as [rb|]; simpl.
  - unfold run, prepend. simpl. by destruct (exec _ _ _) as [[??]?].
  - done.
Qed.

Lemma retire_run (max_objects : nat) (st : shared) (data : ptr)
    (tl : option retire_buffer) :
  2 * Z.of_nat max_objects < 2 ^ uintptr_bits →
  length (m_acquire_list st) = max_objects →
  let rb := current_buffer st tl in
  let queue := buffer rb ++ [data] in
  if decide (2 * max_objects ≤ length queue)%nat then
    ∃ queue' tr,
      run (delete_hazards max_objects queue) st = (Done queue', st, tr) ∧
      run (retire max_objects data tl) st =
        (Done (Some {| buffer := queue'; domain_ref := domain_ref rb |}),
         st, tl_init st tl ++ tr)
  else
    run (retire max_objects data tl) st =
      (Done (Some {| buffer := queue; domain_ref := domain_ref rb |}),
       st, tl_init st tl).
Proof.
  intros Hfits Hcells rb queue. unfold retire.
  rewrite run_tl_retires, retire_threshold_small by done.
  fold rb. fold queue. case_decide as Hlen.
  - destruct (Z.geb_spec (Z.of_nat (length queue)) (2 * Z.of_nat max_objects));
      [|lia].
    destruct (delete_hazards_run max_objects st queue Hcells)
      as (tr & Hrun & _).
    eexists _, tr. split; [exact Hrun|].
    rewrite run_bind, Hrun. unfold prepend, run. simpl. by rewrite app_nil_r.
  - destruct (Z.geb_spec (Z.of_nat (length queue)) (2 * Z.of_nat max_objects));
      [lia|].
    unfold prepend, run. simpl. by rewrite app_nil_r.
Qed.

(** ** C8: the flush at thread exit *)

(** Once a domain object has been constructed [m_instance] is set, and the
    first constructor wins. *)
Lemma hazard_domain_ctor_run (this : nat) (st : shared) :
  run (hazard_domain_ctor this) st =
    match m_instance st with
    | Some d => (Done tt, st, [(EvInstanceLoad (Some d), st)])
    | None =>
        (Done tt, set_instance (Some this) st,
         [(EvInstanceLoad None, st);
          (EvInstanceStore this, set_instance (Some this) st)])
    end.
Proof.
  unfold hazard_domain_ctor, run. rewrite exec_instance_load.
  cbn [interfere tail]. by destruct (m_instance st).
Qed.

(** Below the threshold a thread's retires only pile up. *)
Lemma retire_all_below (max_objects : nat) (st : shared) (ps : list ptr)
    (tl : option retire_buffer) :
  2 * Z.of_nat max_objects < 2 ^ uintptr_bits →
  length (m_acquire_list st) = max_objects →
  (length (buffer (current_buffer st tl)) + length ps < 2 * max_objects)%nat →
  ∃ tr,
    run (retire_all max_objects ps tl) st =
      (Done (match ps with
             | [] => tl
             | _ => Some {| buffer := buffer (current_buffer st tl) ++ ps;
                            domain_ref := domain_ref (current_buffer st tl) |}
             end), st, tr) ∧
    deleted tr = [].
Proof.
  intros Hfits Hcells. revert tl; induction ps as [|p ps IH]; intros tl Hlen.
  - by exists [].
  - cbn [retire_all]. rewrite run_bind.
    pose proof (retire_run max_objects st p tl Hfits Hcells) as Hret.
    cbn zeta in Hret. rewrite decide_False in Hret
      by (rewrite length_app; simpl in *; lia).
    rewrite Hret.
    set (rb' := {| buffer := buffer (current_buffer st tl) ++ [p];
                   domain_ref := domain_ref (current_buffer st tl) |}).
    destruct (IH (Some rb')) as (tr & Hrun & Hdel).
    { simpl in *. rewrite length_app. simpl. lia. }
    rewrite Hrun. eexists. split.
    + unfold prepend. cbn [fst snd]. f_equal. f_equal. f_equal.
      destruct ps as [|q ps]; [done|].
      simpl. by rewrite <- (assoc_L (++)).
    + rewrite deleted_app, Hdel. by destruct tl.
Qed.

(** [~retire_buffer()] with a domain to flush against is one pass of
    [delete_hazards] over the buffer. *)
Lemma retire_buffer_dtor_run (max_objects : nat) (st : shared)
    (rb : retire_buffer) :
  is_Some (domain_ref rb) →
  run (retire_buffer_dtor max_objects rb) st =
    run (delete_hazards max_objects (buffer rb);; mret tt) st.
Proof.
  intros Hd. unfold retire_buffer_dtor.
  rewrite bool_decide_eq_true_2 by done.
  destruct (buffer rb) as [|p b] eqn:Hb; [done|].
  by rewrite bool_decide_eq_false_2.
Qed.

Lemma thread_exit_run (max_objects : nat) (st : shared) (d : nat)
    (retired : list ptr) :
  2 * Z.of_nat max_objects < 2 ^ uintptr_bits →
  length (m_acquire_list st) = max_objects →
  m_instance st = Some d →
  (length retired < 2 * max_objects)%nat →
  (∀ rb, is_Some (domain_ref rb) →
     ∃ tr,
       run (thread_exit max_objects (Some rb)) st = (Done tt, st, tr) ∧
       deleted tr ≡ₚ
         filter (λ p, ¬ holds_hazard (m_acquire_list st) p) (buffer rb)) ∧
  ∃ tr,
    run (tl ← retire_all max_objects retired None;
         thread_exit max_objects tl) st = (Done tt, st, tr) ∧
    deleted tr ≡ₚ filter (λ p, ¬ holds_hazard (m_acquire_list st) p) retired.
Proof.
  intros Hfits Hcells Hinst Hlen.
  assert (∀ rb, is_Some (domain_ref rb) →
     ∃ tr,
       run (thread_exit max_objects (Some rb)) st = (Done tt, st, tr) ∧
       deleted tr ≡ₚ
         filter (λ p, ¬ holds_hazard (m_acquire_list st) p) (buffer rb))
    as Hflush.
  { intros rb Hd. cbn [thread_exit].
    rewrite retire_buffer_dtor_run, run_bind by done.
    destruct (delete_hazards_run max_objects st (buffer rb) Hcells)
      as (tr & Hrun & Hdel & _ & Hperm).
    rewrite Hrun. exists tr. split.
    - unfold prepend, run. simpl. by rewrite app_nil_r.
    - by rewrite Hdel. }
  split; [exact Hflush|].
  rewrite run_bind.
  destruct (retire_all_below max_objects st retired None Hfits Hcells)
    as (tr1 & Hrun1 & Hdel1); [simpl; lia|].
  rewrite Hrun1. destruct retired as [|p ps].
  - exists tr1. split; [|by rewrite Hdel1].
    unfold prepend, run. simpl. by rewrite app_nil_r.
  - destruct (Hflush {| buffer := buffer (current_buffer st None) ++ p :: ps;
                        domain_ref := domain_ref (current_buffer st None) |})
      as (tr2 & Hrun2 & Hdel2).
    { simpl. by rewrite Hinst. }
    rewrite Hrun2. eexists. split; [reflexivity|].
    cbn [snd]. by rewrite deleted_app, Hdel1, Hdel2.
Qed.

(** ** C9: move and destruction of handles *)

Lemma run_release_cell {B} (f : unit → prog B) (c : nat) (st : shared) :
  (c < length (m_acquire_list st))%nat →
  run (release_cell (Some c) ≫= f) st =
    emit (EvCellStore c nullptr release)
         (set_cells (λ l, <[c:=nullptr]> l) st)
         (run (f tt) (set_cells (λ l, <[c:=nullptr]> l) st)).
Proof.
  intros Hc. unfold run, release_cell. rewrite exec_cell_store.
  cbn [interfere tail]. by rewrite decide_True.
Qed.

Lemma move_ctor_run (this hp : nat) (hs : gmap nat hazard_pointer)
    (h : hazard_pointer) (st : shared) :
  hs !! hp = Some h →
  this ≠ hp →
  ∃ hs',
    run (move_ctor this hp hs) st = (Done hs', st, []) ∧
    hs' !! this = Some {| m_cell := m_cell h |} ∧
    hs' !! hp = Some {| m_cell := None |} ∧
    (∀ o, o ≠ this → o ≠ hp → hs' !! o = hs !! o).
Proof.
  intros Hh Hne. unfold move_ctor. rewrite Hh. eexists. split; [reflexivity|].
  split; [by rewrite lookup_insert_eq|].
  split; [by rewrite lookup_insert_ne, lookup_insert_eq|].
  intros o ??. by rewrite !lookup_insert_ne.
Qed.

Lemma move_assign_run (this hp : nat) (hs : gmap nat hazard_pointer)
    (t h : hazard_pointer) (st : shared) :
  hs !! this = Some t →
  hs !! hp = Some h →
  this ≠ hp →
  owns_valid (m_cell t) st →
  ∃ hs',
    run (move_assign this hp hs) st =
      (Done hs', released (m_cell t) st, release_trace (m_cell t) st) ∧
    hs' !! this = Some {| m_cell := m_cell h |} ∧
    hs' !! hp = Some {| m_cell := None |} ∧
    (∀ o, o ≠ this → o ≠ hp → hs' !! o = hs !! o).
Proof.
  intros Ht Hh Hne Hvalid. unfold move_assign.
  rewrite decide_True, Ht, Hh by done.
  eexists. split; [|split; [by rewrite lookup_insert_eq|split]].
  - destruct (m_cell t) as [c|] eqn:Hc.
    + rewrite bool_decide_eq_true_2 by done.
      rewrite run_release_cell by (by apply Hvalid). reflexivity.
    + rewrite bool_decide_eq_false_2 by (by intros [? ?]). reflexivity.
  - by rewrite lookup_insert_ne, lookup_insert_eq.
  - intros o ??. by rewrite !lookup_insert_ne.
Qed.

Lemma move_assign_self (x : nat) (hs : gmap nat hazard_pointer) (st : shared) :
  run (move_assign x x hs) st = (Done hs, st, []).
Proof. unfold move_assign. by rewrite decide_False by tauto. Qed.

Lemma hazard_pointer_dtor_run (this : nat) (hs : gmap nat hazard_pointer)
    (t : hazard_pointer) (st : shared) :
  hs !! this = Some t →
  owns_valid (m_cell t) st →
  run (hazard_pointer_dtor this hs) st =
    (Done (base.delete this hs), released (m_cell t) st,
     release_trace (m_cell t) st).
Proof.
  intros Ht Hvalid. unfold hazard_pointer_dtor. rewrite Ht.
  destruct (m_cell t) as [c|] eqn:Hc.
  - rewrite bool_decide_eq_true_2 by done.
    rewrite run_release_cell by (by apply Hvalid). reflexivity.
  - rewrite bool_decide_eq_false_2 by (by intros [? ?]). reflexivity.
Qed.

(** ** C6 and C10: protect, the guard, empty *)

(** Alone, [protect] succeeds in its first round: the value it read is
    still the source's value at the reload. *)
Lemma protect_run (fuel : nat) (hp : hazard_pointer) (c src : nat)
    (st : shared) (v : ptr) :
  m_cell hp = Some c →
  (c < length (m_acquire_list st))%nat →
  atomics st !! src = Some v →
  let st1 := set_cells (λ l, <[c:=v]> l) st in
  run (protect (S fuel) hp src) st =
    (Done (Some v), st1,
     [(EvSrcLoad src relaxed v, st);
      (EvCellStore c v seq_cst, st1);
      (EvSrcLoad src acquire v, st1)]).
Proof.
  intros Hcell Hc Hsrc st1. unfold run, protect.
  rewrite exec_src_load. cbn [interfere tail]. rewrite Hsrc.
  cbn [protect_loop]. rewrite exec_bind.
  destruct (try_protect_exec hp c v src [] st v Hcell) as [_ Htry];
    [constructor|done|done|].
  cbn [interfere tail] in Htry. rewrite Htry, Z.eqb_refl. done.
Qed.

Lemma source_alive_interfere src env st :
  source_alive src env →
  is_Some (atomics st !! src) →
  is_Some (atomics (interfere env st) !! src).
Proof. destruct env as [|f env]; [done|]. intros H. inversion H; auto. Qed.

Lemma source_alive_tail src env : source_alive src env → source_alive src (tail env).
Proof. destruct env as [|f env]; [done|]. intros H. by inversion H. Qed.

Lemma source_alive_drop src n env :
  source_alive src env → source_alive src (drop n env).
Proof. apply Forall_drop. Qed.

(** The spin of [protect] ends once the other threads leave the source
    alone: with one round more than there are interfering steps, and one
    more for a stale first candidate, the loop returns the value of its
    last reload. *)
Lemma protect_loop_returns (hp : hazard_pointer) (c src : nat) (fuel : nat) :
  m_cell hp = Some c →
  ∀ env st candidate,
    fixed_array env →
    source_alive src env →
    (c < length (m_acquire_list st))%nat →
    is_Some (atomics st !! src) →
    (length env + 2 ≤ fuel)%nat ∨
      (env = [] ∧ atomics st !! src = Some candidate ∧ (1 ≤ fuel)%nat) →
    ∃ p st' tr s,
      exec (protect_loop fuel hp candidate src) env st = (Done (Some p), st', tr) ∧
      last tr = Some (EvSrcLoad src acquire p, s).
Proof.
  intros Hcell. induction fuel as [|fuel IH];
    intros env st candidate Henv Halive Hc Hsrc Hfuel; [lia|].
  cbn [protect_loop]. rewrite exec_bind.
  set (published := set_cells (λ l, <[c:=candidate]> l) (interfere env st)).
  set (reloaded := interfere (tail env) published).
  assert (is_Some (atomics reloaded !! src)) as [current Hcur].
  { apply source_alive_interfere; [by apply source_alive_tail|].
    by apply (source_alive_interfere src env st). }
  destruct (try_protect_exec hp c candidate src env st current Hcell Henv Hc Hcur)
    as [_ Htry].
  rewrite Htry. destruct (current =? candidate) eqn:E.
  - apply Z.eqb_eq in E as ->. eexists _, _, _, _. split; [reflexivity|done].
  - cbn [fst snd length]. unfold prepend. rewrite exec_pause.
    set (env' := drop 3 env).
    set (cleared := set_cells (λ l, <[c:=reset]> l)
                      (interfere (tail (tail env)) reloaded)).
    destruct (IH (tail env') (interfere env' cleared) current)
      as (p & st' & tr & s & Hloop & Hlast).
    + by apply fixed_array_tail, fixed_array_drop.
    + by apply source_alive_tail, source_alive_drop.
    + rewrite (fixed_array_interfere env') by (by apply fixed_array_drop).
      unfold cleared. rewrite cells_set_cells, length_insert.
      rewrite (fixed_array_interfere (tail (tail env)))
        by (by do 2 apply fixed_array_tail).
      unfold reloaded.
      rewrite (fixed_array_interfere (tail env)) by (by apply fixed_array_tail).
      unfold published. rewrite cells_set_cells, length_insert.
      by rewrite (fixed_array_interfere env).
    + apply source_alive_interfere; [by apply source_alive_drop|].
      unfold cleared. cbn [set_cells atomics].
      apply source_alive_interfere; [by do 2 apply source_alive_tail|done].
    + destruct env as [|f env].
      * right. split; [done|]. split; [exact Hcur|].
        destruct Hfuel as [?|(_ & Hst & _)]; [simpl in *; lia|].
        cbn in Hcur. rewrite Hst in Hcur. injection Hcur as ->.
        by rewrite Z.eqb_refl in E.
      * left. destruct Hfuel as [Hfuel|[? _]]; [|done].
        unfold env'. rewrite tail_drop, length_drop. simpl in *. lia.
    + unfold cleared, reloaded, published in Hloop.
      rewrite Hloop. unfold emit. cbn [fst snd].
      eexists _, _, _, s. split; [reflexivity|].
      rewrite !last_app, !last_cons, Hlast. done.
Qed.

Lemma protect_returns (hp : hazard_pointer) (c src : nat) env st :
  m_cell hp = Some c →
  fixed_array env →
  source_alive src env →
  (c < length (m_acquire_list st))%nat →
  is_Some (atomics st !! src) →
  ∃ p st' tr s,
    exec (protect (length env + 1) hp src) env st = (Done (Some p), st', tr) ∧
    last tr = Some (EvSrcLoad src acquire p, s).
Proof.
  intros Hcell Henv Halive Hc Hsrc. unfold protect. rewrite exec_src_load.
  destruct (source_alive_interfere src env st Halive Hsrc) as [v Hv].
  rewrite Hv.
  destruct (protect_loop_returns hp c src (length env + 1) Hcell
              (tail env) (interfere env st) v)
    as (p & st' & tr & s & Hloop & Hlast).
  - by apply fixed_array_tail.
  - by apply source_alive_tail.
  - by rewrite fixed_array_interfere.
  - by rewrite Hv.
  - destruct env as [|f env]; [right; split; [done|]; split; [done|simpl; lia]|].
    left. simpl. lia.
  - rewrite Hloop. unfold emit. cbn [fst snd].
    eexists _, _, _, s. split; [reflexivity|].
    by rewrite last_cons, Hlast.
Qed.

Lemma reset_protection_run {B} (f : unit → prog B) (hp : hazard_pointer)
    (c : nat) env (st : shared) :
  m_cell hp = Some c →
  (c < length (m_acquire_list (interfere env st)))%nat →
  exec (reset_protection hp ≫= f) env st =
    emit (EvCellStore c reset release)
         (set_cells (λ l, <[c:=reset]> l) (interfere env st))
         (exec (f tt) (tail env)
               (set_cells (λ l, <[c:=reset]> l) (interfere env st))).
Proof.
  intros Hcell Hc. unfold reset_protection. rewrite Hcell, exec_cell_store.
  by rewrite decide_True.
Qed.

Lemma guard_ctor_exec (fuel hp src : nat) (hs : gmap nat hazard_pointer)
    (h : hazard_pointer) env (st : shared) :
  hs !! hp = Some h →
  exec (guard_ctor fuel hp src hs) env st =
    match exec (protect fuel h src) env st with
    | (Done (Some p), st', tr) =>
        (Done (Some {| m_hp := hp; m_ptr := p |}), st', tr)
    | (Done None, st', tr) => (Done None, st', tr)
    | (Failed f, st', tr) => (Failed f, st', tr)
    end.
Proof.
  intros Hh. unfold guard_ctor. rewrite Hh, exec_bind.
  destruct (exec (protect fuel h src) env st) as [[[[p|]|f] st'] tr];
    [| |done]; unfold prepend; simpl; by rewrite app_nil_r.
Qed.

Lemma guarded_scope_run {A} (fuel hp src : nat)
    (hs : gmap nat hazard_pointer) (h : hazard_pointer) (c : nat)
    (st : shared) (v : ptr) (body : guard → prog (scope_exit A))
    (r : scope_exit A) (st2 : shared) (tr2 : trace) :
  hs !! hp = Some h →
  m_cell h = Some c →
  (c < length (m_acquire_list st))%nat →
  atomics st !! src = Some v →
  let g := {| m_hp := hp; m_ptr := v |} in
  let st1 := set_cells (λ l, <[c:=v]> l) st in
  let st3 := set_cells (λ l, <[c:=reset]> l) st2 in
  run (body g) st1 = (Done r, st2, tr2) →
  length (m_acquire_list st2) = length (m_acquire_list st) →
  run (guarded_scope (S fuel) hp src hs body) st =
    (Done (Some (g, r)), st3,
     [(EvSrcLoad src relaxed v, st);
      (EvCellStore c v seq_cst, st1);
      (EvSrcLoad src acquire v, st1)] ++ tr2 ++
     [(EvCellStore c reset release, st3)]).
Proof.
  intros Hh Hcell Hc Hsrc g st1 st3 Hbody Hlen.
  unfold guarded_scope. rewrite run_bind. unfold run at 1.
  rewrite (guard_ctor_exec _ _ _ _ h) by done.
  fold (run (protect (S fuel) h src) st).
  rewrite (protect_run fuel h c src st v) by done.
  fold st1. fold g. rewrite run_bind, Hbody.
  unfold guard_dtor. cbn [m_hp g]. rewrite Hh. unfold run.
  rewrite (reset_protection_run _ h c) by (cbn [interfere]; by try lia).
  done.
Qed.

Lemma empty_run_none (hp : hazard_pointer) (st : shared) :
  m_cell hp = None → run (empty hp) st = (Done true, st, []).
Proof. intros H. unfold empty. by rewrite H. Qed.

Lemma empty_run_some (hp : hazard_pointer) (c : nat) (v : ptr) (st : shared) :
  m_cell hp = Some c →
  m_acquire_list st !! c = Some v →
  run (empty hp) st =
    (Done ((v =? nullptr) || (v =? reset)), st, [(EvCellLoad c relaxed v, st)]).
Proof.
  intros H Hv. unfold empty, run. rewrite H, exec_cell_load.
  cbn [interfere tail]. by rewrite Hv.
Qed.

Lemma make_hazard_pointer_run (max_objects : nat) (st : shared) (i : nat) :
  length (m_acquire_list st) = max_objects →
  m_acquire_list st !! i = Some nullptr →
  (∀ j v, (j < i)%nat → m_acquire_list st !! j = Some v → v ≠ nullptr) →
  let st' := set_cells (λ l, <[i:=sentinel]> l) st in
  run (make_hazard_pointer max_objects) st =
    (Done {| m_cell := Some i |}, st',
     sweep_loads st 0 (take (S i) (m_acquire_list st)) ++
     [(EvCellCas i nullptr sentinel acq_rel true, st')]).
Proof.
  intros Hlen Hi Hmin st'. unfold make_hazard_pointer.
  rewrite run_bind, (capture_cell_first_free _ _ i) by done.
  unfold prepend, run. simpl. by rewrite app_nil_r.
Qed.

Lemma is_Some_lookup_cells_insert (st : shared) (i : nat) (v : ptr) :
  (i < length (m_acquire_list st))%nat →
  m_acquire_list (set_cells (λ l, <[i:=v]> l) st) !! i = Some v.
Proof. intros Hi. rewrite cells_set_cells. by apply list_lookup_insert_eq. Qed.


(** ** C1: reclamation against concurrent readers *)

Lemma keeps_published_interfere c p env st :
  keeps_published c p env →
  m_acquire_list st !! c = Some p →
  m_acquire_list (interfere env st) !! c = Some p.
Proof. destruct env as [|f env]; [done|]. intros H. inversion H; auto. Qed.

Lemma keeps_published_tail c p env :
  keeps_published c p env → keeps_published c p (tail env).
Proof. destruct env as [|f env]; [done|]. intros H. by inversion H. Qed.

Lemma keeps_published_drop c p n env :
  keeps_published c p env → keeps_published c p (drop n env).
Proof. apply Forall_drop. Qed.

(** A scan that visits a cell which holds [p] from the start of the scan
    on does not answer [false], and deletes nothing. *)
Lemma scan_loop_held (cells : list nat) (c : nat) (p q : ptr) env st out st' tr :
  keeps_published c p env →
  m_acquire_list st !! c = Some p →
  exec (scan_loop cells q) env st = (out, st', tr) →
  m_acquire_list st' !! c = Some p ∧
  deleted tr = [] ∧
  (c ∈ cells → is_hazard p p = true → q = p → out ≠ Done false).
Proof.
  revert env st out st' tr; induction cells as [|cell rest IH];
    intros env st out st' tr Henv Hheld.
  - simpl. intros [= <- <- <-]. split; [done|]. split; [done|].
    by intros ?%elem_of_nil.
  - cbn [scan_loop]. rewrite exec_cell_load.
    pose proof (keeps_published_interfere _ _ _ _ Henv Hheld) as Hheld'.
    destruct (m_acquire_list (interfere env st) !! cell) as [h|] eqn:Hh.
    + destruct (is_hazard h q) eqn:E.
      * simpl. intros [= <- <- <-]. done.
      * destruct (exec (scan_loop rest q) _ _) as [[o s] t] eqn:Hrest.
        apply IH in Hrest as (Hs & Ht & Hout);
          [|by apply keeps_published_tail|done].
        unfold emit. simpl. intros [= <- <- <-].
        split; [done|]. split; [done|].
        intros [->|Hin]%elem_of_cons Hp ->; [|by apply Hout].
        congruence.
    + intros [= <- <- <-]. done.
Qed.

Lemma delete_hazards_from_held (max_objects : nat) (dist : nat)
    (buf : list ptr) (it c : nat) (p : ptr) env st :
  (c < max_objects)%nat →
  is_hazard p p = true →
  keeps_published c p env →
  m_acquire_list st !! c = Some p →
  p ∉ deleted (exec (delete_hazards_from max_objects dist buf it) env st).2.
Proof.
  intros Hc Hp. revert buf it env st; induction dist as [|d IH];
    intros buf it env st Henv Hheld.
  - simpl. apply not_elem_of_nil.
  - cbn [delete_hazards_from].
    destruct (buf !! it) as [q|]; [|simpl; apply not_elem_of_nil].
    rewrite exec_bind.
    destruct (exec (scan_for_hazard max_objects q) env st)
      as [[[b|f] st1] tr1] eqn:Hscan.
    2:{ apply scan_loop_held with (c:=c) (p:=p) in Hscan as (_ & Hd & _);
          [|done..].
        cbn [snd]. rewrite Hd. apply not_elem_of_nil. }
    apply scan_loop_held with (c:=c) (p:=p) in Hscan as (Hheld1 & Hdel1 & Hout);
      [|done..].
    pose proof (keeps_published_drop c p (length tr1) env Henv) as Henv1.
    unfold prepend. cbn [snd]. rewrite deleted_app, Hdel1, app_nil_l.
    destruct b.
    + by apply IH.
    + assert (q ≠ p) as Hne.
      { intros ->. apply Hout; [apply elem_of_seq; lia|done..]. }
      rewrite exec_delete. unfold emit. cbn [snd].
      rewrite deleted_cons_delete.
      pose proof (keeps_published_interfere _ _ _ _ Henv1 Hheld1) as Hheld2.
      pose proof (keeps_published_tail _ _ _ Henv1) as Henv2.
      apply not_elem_of_cons. split; [done|].
      case_decide.
      * destruct (buf !! (it + d)%nat); [|apply not_elem_of_nil].
        by apply IH.
      * by apply IH.
Qed.

(** The block with a guard, whatever the other threads do meanwhile: when
    [protect] has returned [p] and the body has left the block in whatever
    way [r], the last operation of the block is the destructor's store of
    RESET into the handle's cell, and the guard still carries [p]. *)
Lemma guarded_scope_exec {A} (fuel hp src : nat)
    (hs : gmap nat hazard_pointer) (h : hazard_pointer) (c : nat)
    (body : guard → prog (scope_exit A)) env (st : shared)
    (p : ptr) (st1 : shared) (tr1 : trace)
    (r : scope_exit A) (st2 : shared) (tr2 : trace) :
  hs !! hp = Some h →
  m_cell h = Some c →
  let g := {| m_hp := hp; m_ptr := p |} in
  let env1 := drop (length tr1) env in
  let env2 := drop (length tr2) env1 in
  let st3 := set_cells (λ l, <[c:=reset]> l) (interfere env2 st2) in
  exec (protect fuel h src) env st = (Done (Some p), st1, tr1) →
  exec (body g) env1 st1 = (Done r, st2, tr2) →
  (c < length (m_acquire_list (interfere env2 st2)))%nat →
  exec (guarded_scope fuel hp src hs body) env st =
    (Done (Some (g, r)), st3,
     tr1 ++ tr2 ++ [(EvCellStore c reset release, st3)]).
Proof.
  intros Hh Hcell g env1 env2 st3 Hprot Hbody Hc.
  unfold guarded_scope. rewrite exec_bind.
  rewrite (guard_ctor_exec _ _ _ _ h), Hprot by done.
  fold g env1. rewrite exec_bind, Hbody. fold env2.
  unfold guard_dtor. cbn [m_hp g]. rewrite Hh.
  rewrite (reset_protection_run _ h c) by done.
  done.
Qed.

Lemma state_of_protecting_hazard (p : ptr) :
  state_of p = PROTECTING p → is_hazard p p = true.
Proof.
  unfold state_of, is_hazard.
  destruct (p =? nullptr); [done|]. destruct (p =? sentinel); [done|].
  destruct (p =? reset); [done|]. intros _. by rewrite Z.eqb_refl.
Qed.

Lemma scan_loads_cons k v vs :
  scan_loads k (v :: vs) = EvCellLoad k seq_cst v :: scan_loads (S k) vs.
Proof.
  unfold scan_loads. rewrite imap_cons, Nat.add_0_r. f_equal.
  apply imap_ext. intros j x _. simpl. f_equal. lia.
Qed.

(** A scan deletes nothing. *)
Lemma scan_loop_no_delete (q : ptr) (cells : list nat) env st out st' tr :
  exec (scan_loop cells q) env st = (out, st', tr) → deleted tr = [].
Proof.
  revert env st out st' tr; induction cells as [|cell rest IH];
    intros env st out st' tr.
  - simpl. by intros [= <- <- <-].
  - cbn [scan_loop]. rewrite exec_cell_load.
    destruct (m_acquire_list (interfere env st) !! cell) as [h|];
      [|by intros [= <- <- <-]].
    destruct (is_hazard h q).
    + simpl. by intros [= <- <- <-].
    + destruct (exec (scan_loop rest q) _ _) as [[o s] t] eqn:Hrest.
      apply IH in Hrest. unfold emit. simpl. by intros [= <- <- <-].
Qed.

(** A scan that answers [false] has loaded every cell it was to visit, in
    order, each load returning what the cell held then, and none of the
    values loaded was a hazard for the address. *)
Lemma scan_loop_false (q : ptr) (n k : nat) env st st' tr :
  exec (scan_loop (seq k n) q) env st = (Done false, st', tr) →
  ∃ vs,
    events tr = scan_loads k vs ∧
    length vs = n ∧
    loads_observed tr ∧
    Forall (λ v, is_hazard v q = false) vs.
Proof.
  revert k env st st' tr; induction n as [|n IH]; intros k env st st' tr.
  - simpl. intros [= <- <-]. exists []. repeat split; by constructor.
  - cbn [seq scan_loop]. rewrite exec_cell_load.
    destruct (m_acquire_list (interfere env st) !! k) as [h|] eqn:Hh; [|done].
    destruct (is_hazard h q) eqn:E; [done|].
    destruct (exec (scan_loop (seq (S k) n) q) _ _) as [[o s] t] eqn:Hrest.
    unfold emit. simpl. intros [= -> <- <-].
    apply IH in Hrest as (vs & Hev & Hlen & Hobs & Hall).
    exists (h :: vs). rewrite scan_loads_cons.
    split; [simpl; by rewrite <- Hev|]. split; [simpl; by rewrite Hlen|].
    split; by constructor.
Qed.

Lemma no_delete_no_split (tr tr1 tr2 : trace) (q : ptr) (s : shared) :
  deleted tr = [] → tr ≠ tr1 ++ (EvDelete q, s) :: tr2.
Proof.
  intros Hdel ->. rewrite deleted_app, deleted_cons_delete in Hdel.
  by destruct (deleted tr1).
Qed.

(** A deletion in a trace that begins with a part without deletions lies
    behind that part. *)
Lemma app_split_delete (l1 l2 a b : trace) (q : ptr) (s : shared) :
  deleted l1 = [] →
  l1 ++ l2 = a ++ (EvDelete q, s) :: b →
  ∃ a', a = l1 ++ a' ∧ l2 = a' ++ (EvDelete q, s) :: b.
Proof.
  revert a; induction l1 as [|x l1 IH]; intros a Hdel Heq.
  - by exists a.
  - assert (deleted l1 = [] ∧ ∀ r u, x ≠ (EvDelete r, u)) as [Hdel1 Hx].
    { destruct x as [[] u]; cbn in Hdel; try done; split; done. }
    destruct a as [|y a]; simpl in Heq.
    + injection Heq as -> _. by destruct (Hx q s).
    + injection Heq as <- Heq. destruct (IH a Hdel1 Heq) as (a' & -> & ->).
      by exists a'.
Qed.

(** Every deletion of a pass comes directly after a complete scan for the
    address deleted, and that scan found no hazard. *)
Lemma delete_hazards_from_scanned (max_objects : nat) (dist : nat)
    (buf : list ptr) (it : nat) env st (tr1 tr2 : trace) (q : ptr) (s : shared) :
  (exec (delete_hazards_from max_objects dist buf it) env st).2 =
    tr1 ++ (EvDelete q, s) :: tr2 →
  ∃ tr0 scan vs,
    tr1 = tr0 ++ scan ∧
    events scan = scan_loads 0 vs ∧
    length vs = max_objects ∧
    loads_observed scan ∧
    Forall (λ v, is_hazard v q = false) vs.
Proof.
  revert buf it env st tr1; induction dist as [|d IH];
    intros buf it env st tr1.
  - simpl. by destruct tr1.
  - cbn [delete_hazards_from].
    destruct (buf !! it) as [q'|]; [|simpl; by destruct tr1].
    rewrite exec_bind. unfold scan_for_hazard.
    destruct (exec (scan_loop (seq 0 max_objects) q') env st)
      as [[[b|f] st1] trs] eqn:Hscan.
    2:{ cbn [snd]. intros Heq. apply scan_loop_no_delete in Hscan.
        by destruct (no_delete_no_split _ tr1 tr2 q s Hscan). }
    pose proof (scan_loop_no_delete _ _ _ _ _ _ _ Hscan) as Hnodel.
    unfold prepend. cbn [snd]. destruct b.
    + intros Heq. apply app_split_delete in Heq as (a' & -> & Heq); [|done].
      apply IH in Heq as (tr0 & scan & vs & -> & Hrest).
      exists (trs ++ tr0), scan, vs. by rewrite <- (assoc_L (++)).
    + apply scan_loop_false in Hscan as (vs & Hev & Hlen & Hobs & Hall).
      rewrite exec_delete.
      set (rest := exec _ (tail (drop (length trs) env)) _).
      unfold emit. cbn [snd]. intros Heq.
      apply app_split_delete in Heq as (a' & -> & Heq); [|done].
      destruct a' as [|x a']; simpl in Heq.
      * injection Heq as <- _ _.
        exists [], trs, vs. by rewrite app_nil_r.
      * injection Heq as <- Heq.
        assert (∃ tr0 scan vs0,
                  a' = tr0 ++ scan ∧ events scan = scan_loads 0 vs0 ∧
                  length vs0 = max_objects ∧ loads_observed scan ∧
                  Forall (λ v, is_hazard v q = false) vs0)
          as (tr0 & scan & vs0 & -> & Hrest).
        { unfold rest in Heq. case_decide.
          - destruct (buf !! (it + d)%nat); [by eapply IH|].
            simpl in Heq. by destruct a'.
          - by eapply IH. }
        exists (trs ++ (EvDelete q', interfere (drop (length trs) env) st1) :: tr0),
               scan, vs0.
        split; [|done]. by rewrite <- (assoc_L (++)).
Qed.

(** * The claims *)

(** C1, as stated, fails: a reader (the live handle that owns cell 0, in
    the RESET state) runs [try_protect(4096, source)] while another thread
    runs [delete_hazards] on the queue [[4096]].  The scan reads cell 0
    before the reader's first store and finds RESET; the reader then
    publishes 4096; the pass then deletes 4096, at a moment when cell 0
    holds exactly 4096 and a scan started now would find it.  (The object
    had been unlinked, the source holds 8192: the reader's call goes on to
    fail its reload check and clears the cell.) *)
Lemma delete_while_published :
  let reader := {| m_cell := Some 0%nat |} in
  let st := {| m_acquire_list := [reset]; atomics := [8192];
               m_instance := None |} in
  let st' := {| m_acquire_list := [4096]; atomics := [8192];
                m_instance := None |} in
  let publish := first_op (try_protect reader 4096 0) in
  let r := exec (delete_hazards 1 [4096]) [id; publish] st in
  publish st = st' ∧
  r = (Done [], st',
       [(EvCellLoad 0 seq_cst reset, st); (EvDelete 4096, st')]) ∧
  (EvDelete 4096, st') ∈ r.2 ∧
  holds_hazard (m_acquire_list st') 4096 ∧
  (run (scan_for_hazard 1 4096) st').1.1 = Done true ∧
  (run (try_protect reader 4096 0) st).1 = (Done (false, 8192), st).
Proof.
  cbv zeta. split; [reflexivity|]. split; [reflexivity|].
  split; [by right; left|]. split; [|split; reflexivity].
  unfold holds_hazard. simpl. split; [by left|]. by vm_compute.
Qed.

(** C1, amended.  Whatever the other threads do while [delete_hazards]
    runs:
    - the pass frees a pointer only directly after its own [scan_for_hazard]
      for that pointer: the events before the deletion end with
      [max_objects] loads of the cells [0 .. max_objects - 1], in index
      order, each returning what the cell held at that moment, and none of
      the values loaded is a protected address equal to the pointer;
    - so the pass does not delete an object whose address some cell holds,
      as a protected address, from the start of the pass to its end.
    (An address that is published into a cell only after the scan for it has
    read that cell does not stop the deletion.) *)
Theorem delete_hazards_keeps_published (max_objects : nat) (buf : list ptr)
    (env : interference) (st : shared) :
  (∀ (tr1 tr2 : trace) (q : ptr) (s : shared),
     (exec (delete_hazards max_objects buf) env st).2 =
       tr1 ++ (EvDelete q, s) :: tr2 →
     ∃ (tr0 scan : trace) (vs : list ptr),
       tr1 = tr0 ++ scan ∧
       events scan = scan_loads 0 vs ∧
       length vs = max_objects ∧
       loads_observed scan ∧
       Forall (λ v, is_hazard v q = false) vs) ∧
  (∀ (c : nat) (p : ptr),
     (c < max_objects)%nat →
     state_of p = PROTECTING p →
     m_acquire_list st !! c = Some p →
     keeps_published c p env →
     p ∉ deleted (exec (delete_hazards max_objects buf) env st).2).
Proof.
  split.
  - intros tr1 tr2 q s Heq. unfold delete_hazards in Heq.
    by eapply delete_hazards_from_scanned.
  - intros c p Hc Hp Hheld Henv. unfold delete_hazards.
    apply delete_hazards_from_held with (c:=c); [done| |done..].
    by apply state_of_protecting_hazard.
Qed.

Lemma delete_hazards_keeps_published_witness :
  let st := {| m_acquire_list := [4096; reset]; atomics := [];
               m_instance := None |} in
  let st' := {| m_acquire_list := [4096; 8192]; atomics := [];
                m_instance := None |} in
  let env := [set_cells (λ l, <[1%nat:=8192]> l)] in
  let tr := (exec (delete_hazards 2 [4096; 8192; 12288]) env st).2 in
  (0 < 2)%nat ∧
  state_of 4096 = PROTECTING 4096 ∧
  m_acquire_list st !! 0%nat = Some 4096 ∧
  keeps_published 0 4096 env ∧
  (4096 ∉ deleted tr) ∧
  deleted tr = [12288] ∧
  tr = take 5 tr ++ (EvDelete 12288, st') :: [] ∧
  events (take 5 tr) =
    scan_loads 0 [4096] ++ scan_loads 0 [4096; 8192] ++
    scan_loads 0 [4096; 8192] ∧
  ∃ (tr0 scan : trace) (vs : list ptr),
    take 5 tr = tr0 ++ scan ∧
    events scan = scan_loads 0 vs ∧
    length vs = 2%nat ∧
    loads_observed scan ∧
    Forall (λ v, is_hazard v 12288 = false) vs.
Proof.
  cbv zeta.
  assert (keeps_published 0 4096 [set_cells (λ l, <[1%nat:=8192]> l)]) as Hk.
  { constructor; [|constructor]. intros s Hs.
    rewrite cells_set_cells. by rewrite list_lookup_insert_ne. }
  split; [lia|]. split; [reflexivity|]. split; [reflexivity|].
  split; [exact Hk|]. split.
  { apply (proj2 (delete_hazards_keeps_published 2 _ _ _) 0%nat 4096);
      [lia|reflexivity..|exact Hk]. }
  split; [reflexivity|]. split; [reflexivity|]. split; [reflexivity|].
  eapply (proj1 (delete_hazards_keeps_published 2 [4096; 8192; 12288]
                  [set_cells (λ l, <[1%nat:=8192]> l)]
                  {| m_acquire_list := [4096; reset]; atomics := [];
                     m_instance := None |})).
  reflexivity.
Defined.

Lemma capture_cell_spec_witness :
  let st := {| m_acquire_list := [sentinel; nullptr; nullptr]; atomics := [];
               m_instance := None |} in
  let st' := {| m_acquire_list := [sentinel; sentinel; nullptr]; atomics := [];
                m_instance := None |} in
  let free := {| m_acquire_list := [nullptr; nullptr; nullptr]; atomics := [];
                 m_instance := None |} in
  length (m_acquire_list st) = 3%nat ∧
  run (capture_cell 3) st =
    (Done 1%nat, st',
     [(EvCellLoad 0 relaxed sentinel, st);
      (EvCellLoad 1 relaxed nullptr, st);
      (EvCellCas 1 nullptr sentinel acq_rel true, st')]) ∧
  ∃ full tr,
    run (capture_many 3 3) free = (Done [0; 1; 2]%nat, full, tr) ∧
    m_acquire_list full = [sentinel; sentinel; sentinel] ∧
    run (capture_cell 3) full =
      (Failed aborted, full, sweep_loads full 0 (m_acquire_list full)).
Proof.
  cbv zeta. split; [reflexivity|]. split.
  - destruct (capture_cell_spec 3
                {| m_acquire_list := [sentinel; nullptr; nullptr]; atomics := [];
                   m_instance := None |} eq_refl) as (_ & Hfirst & _).
    apply (Hfirst 1%nat); [reflexivity|].
    intros [|j] v Hj; [|lia]. intros [= <-]. by vm_compute.
  - destruct (capture_cell_spec 3
                {| m_acquire_list := [nullptr; nullptr; nullptr]; atomics := [];
                   m_instance := None |} eq_refl) as (_ & _ & _ & Hcap).
    exact (Hcap eq_refl).
Defined.

(** C3. [try_protect(candidate, source)] on a handle that owns cell [c]:
    first a seq_cst store of the candidate into the cell, then an acquire
    load of the source.  It returns [true] exactly when the value loaded
    equals the candidate.  Otherwise a third operation stores the RESET
    encoding into the same cell (the handle keeps the cell), and the
    candidate handed back is the value just loaded.  This holds whatever
    the other threads do in between ([env]). *)
Theorem try_protect_spec (hp : hazard_pointer) (c : nat) (candidate : ptr)
    (src : nat) (env : interference) (st : shared) (current : ptr) :
  m_cell hp = Some c →
  fixed_array env →
  (c < length (m_acquire_list st))%nat →
  let published := set_cells (λ l, <[c:=candidate]> l) (interfere env st) in
  let reloaded := interfere (tail env) published in
  let cleared :=
    set_cells (λ l, <[c:=reset]> l) (interfere (tail (tail env)) reloaded) in
  atomics reloaded !! src = Some current →
  at_least_acquire acquire = true ∧
  exec (try_protect hp candidate src) env st =
    if current =? candidate then
      (Done (true, candidate), reloaded,
       [(EvCellStore c candidate seq_cst, published);
        (EvSrcLoad src acquire current, reloaded)])
    else
      (Done (false, current), cleared,
       [(EvCellStore c candidate seq_cst, published);
        (EvSrcLoad src acquire current, reloaded);
        (EvCellStore c reset release, cleared)]).
Proof. apply try_protect_exec. Qed.

Lemma try_protect_spec_witness :
  let hp := {| m_cell := Some 0%nat |} in
  let st := {| m_acquire_list := [sentinel]; atomics := [4096];
               m_instance := None |} in
  let swing := set_atomics (λ l, <[0%nat:=8192]> l) in
  let env := [id; swing] in
  m_cell hp = Some 0%nat ∧
  fixed_array env ∧
  (0 < length (m_acquire_list st))%nat ∧
  exec (try_protect hp 4096 0) env st =
    (Done (false, 8192),
     {| m_acquire_list := [reset]; atomics := [8192]; m_instance := None |},
     [(EvCellStore 0 4096 seq_cst,
       {| m_acquire_list := [4096]; atomics := [4096]; m_instance := None |});
      (EvSrcLoad 0 acquire 8192,
       {| m_acquire_list := [4096]; atomics := [8192]; m_instance := None |});
      (EvCellStore 0 reset release,
       {| m_acquire_list := [reset]; atomics := [8192]; m_instance := None |})]) ∧
  run (try_protect hp 4096 0) st =
    (Done (true, 4096),
     {| m_acquire_list := [4096]; atomics := [4096]; m_instance := None |},
     [(EvCellStore 0 4096 seq_cst,
       {| m_acquire_list := [4096]; atomics := [4096]; m_instance := None |});
      (EvSrcLoad 0 acquire 4096,
       {| m_acquire_list := [4096]; atomics := [4096]; m_instance := None |})]).
Proof.
  cbv zeta.
  assert (fixed_array [id; set_atomics (λ l, <[0%nat:=8192]> l)]) as Henv.
  { repeat constructor. }
  split; [reflexivity|]. split; [exact Henv|]. split; [simpl; lia|]. split.
  - exact (proj2 (try_protect_spec {| m_cell := Some 0%nat |} 0 4096 0 _
                    {| m_acquire_list := [sentinel]; atomics := [4096];
                       m_instance := None |} 8192
                    eq_refl Henv (Nat.lt_0_succ 0) eq_refl)).
  - exact (proj2 (try_protect_spec {| m_cell := Some 0%nat |} 0 4096 0 []
                    {| m_acquire_list := [sentinel]; atomics := [4096];
                       m_instance := None |} 4096
                    eq_refl (Forall_nil_2 _) (Nat.lt_0_succ 0) eq_refl)).
Defined.

(** C4. Run against the cell array as it stands, [delete_hazards] is one
    pass over the retire queue: an entry whose address some cell holds as a
    protected address (not null, not the sentinel, not RESET) is kept; any
    other entry is deleted and removed by moving the last remaining entry
    into its place ([reclaim_pass] with [swap_remove]).  Afterwards the
    queue holds exactly the hazarded entries and exactly the others were
    deleted, in an order that need not be the original one; the cells are
    left as they were. *)
Theorem delete_hazards_spec (max_objects : nat) (st : shared) (buf : list ptr) :
  length (m_acquire_list st) = max_objects →
  let cells := m_acquire_list st in
  let pass :=
    reclaim_pass (λ p, bool_decide (holds_hazard cells p)) (length buf) buf 0 in
  ∃ tr,
    run (delete_hazards max_objects buf) st = (Done pass.1, st, tr) ∧
    deleted tr = pass.2 ∧
    pass.1 ≡ₚ filter (holds_hazard cells) buf ∧
    pass.2 ≡ₚ filter (λ p, ¬ holds_hazard cells p) buf.
Proof. apply delete_hazards_run. Qed.

Lemma delete_hazards_spec_witness :
  let st := {| m_acquire_list := [20; 40]; atomics := []; m_instance := None |} in
  length (m_acquire_list st) = 2%nat ∧
  ∃ tr,
    run (delete_hazards 2 [10; 20; 30; 40]) st = (Done [40; 20], st, tr) ∧
    deleted tr = [10; 30].
Proof.
  cbv zeta. split; [reflexivity|].
  destruct (delete_hazards_spec 2
              {| m_acquire_list := [20; 40]; atomics := []; m_instance := None |}
              [10; 20; 30; 40] eq_refl) as (tr & Hrun & Hdel & _).
  exists tr. split; [exact Hrun|exact Hdel].
Defined.

(** C5 fails on the code.  A handle captures cell 0 and protects a source
    that holds null: [try_protect] stores the candidate, null, into the
    cell and succeeds, so the cell of a live handle reads FREE, and the
    next capture claims the same cell. *)
Theorem protect_null_frees_owned_cell :
  let st := {| m_acquire_list := [nullptr; nullptr]; atomics := [nullptr];
               m_instance := None |} in
  let h := {| m_cell := Some 0%nat |} in
  ∃ st1 tr1 st2 tr2 st3 tr3,
    run (make_hazard_pointer 2) st = (Done h, st1, tr1) ∧
    m_acquire_list st1 = [sentinel; nullptr] ∧
    run (protect 1 h 0) st1 = (Done (Some nullptr), st2, tr2) ∧
    m_acquire_list st2 = [nullptr; nullptr] ∧
    state_of nullptr = FREE ∧
    run (make_hazard_pointer 2) st2 = (Done h, st3, tr3).
Proof. cbv zeta. do 6 eexists. repeat split; reflexivity. Qed.

(** C7. [retire(ptr)] appends [ptr] to the calling thread's retire queue
    and runs [delete_hazards] on that queue exactly when the queue has then
    at least [2 * max_objects] entries; below that it touches no cell and
    deletes nothing, and the queue is the old one with [ptr] at its end. *)
Theorem retire_spec (max_objects : nat) (st : shared) (data : ptr)
    (tl : option retire_buffer) :
  2 * Z.of_nat max_objects < 2 ^ uintptr_bits →
  length (m_acquire_list st) = max_objects →
  let rb := current_buffer st tl in
  let queue := buffer rb ++ [data] in
  if decide (2 * max_objects ≤ length queue)%nat then
    ∃ queue' tr,
      run (delete_hazards max_objects queue) st = (Done queue', st, tr) ∧
      run (retire max_objects data tl) st =
        (Done (Some {| buffer := queue'; domain_ref := domain_ref rb |}),
         st, tl_init st tl ++ tr)
  else
    run (retire max_objects data tl) st =
      (Done (Some {| buffer := queue; domain_ref := domain_ref rb |}),
       st, tl_init st tl).
Proof. apply retire_run. Qed.

Lemma retire_spec_witness :
  let st := {| m_acquire_list := [20; reset]; atomics := [];
               m_instance := Some 1%nat |} in
  let tl := Some {| buffer := [10; 20; 30]; domain_ref := Some 1%nat |} in
  2 * Z.of_nat 2 < 2 ^ uintptr_bits ∧
  length (m_acquire_list st) = 2%nat ∧
  (∃ tr,
     run (retire 2 40 tl) st =
       (Done (Some {| buffer := [20]; domain_ref := Some 1%nat |}), st, tr) ∧
     deleted tr = [10; 40; 30]) ∧
  run (retire 2 10 None) st =
    (Done (Some {| buffer := [10]; domain_ref := Some 1%nat |}), st,
     [(EvInstanceLoad (Some 1%nat), st)]).
Proof.
  cbv zeta. split; [by vm_compute|]. split; [reflexivity|]. split.
  - pose proof (retire_spec 2
                  {| m_acquire_list := [20; reset]; atomics := [];
                     m_instance := Some 1%nat |} 40
                  (Some {| buffer := [10; 20; 30]; domain_ref := Some 1%nat |})
                  eq_refl eq_refl) as H.
    cbv zeta in H. destruct H as (queue' & tr & Hpass & Hret).
    exists tr. split.
    + rewrite Hret. by injection Hpass as <- _.
    + by injection Hpass as _ <-.
  - exact (retire_spec 2
             {| m_acquire_list := [20; reset]; atomics := [];
                m_instance := Some 1%nat |} 10 None eq_refl eq_refl).
Defined.

(** C8. When a thread ends, the destructor of its retire buffer runs one
    [delete_hazards] pass over the buffer (a domain having been
    constructed): every entry no cell protects when the pass runs is
    deleted.  In particular a thread that retires fewer objects than the
    threshold and then ends deletes exactly those of them that no cell
    protects. *)
Theorem thread_exit_flush (max_objects : nat) (st : shared) (d : nat)
    (retired : list ptr) :
  2 * Z.of_nat max_objects < 2 ^ uintptr_bits →
  length (m_acquire_list st) = max_objects →
  m_instance st = Some d →
  (length retired < 2 * max_objects)%nat →
  (∀ rb, is_Some (domain_ref rb) →
     ∃ tr,
       run (thread_exit max_objects (Some rb)) st = (Done tt, st, tr) ∧
       deleted tr ≡ₚ
         filter (λ p, ¬ holds_hazard (m_acquire_list st) p) (buffer rb)) ∧
  ∃ tr,
    run (tl ← retire_all max_objects retired None;
         thread_exit max_objects tl) st = (Done tt, st, tr) ∧
    deleted tr ≡ₚ filter (λ p, ¬ holds_hazard (m_acquire_list st) p) retired.
Proof. apply thread_exit_run. Qed.

Lemma thread_exit_flush_witness :
  let st := {| m_acquire_list := [20; reset]; atomics := [];
               m_instance := Some 1%nat |} in
  2 * Z.of_nat 2 < 2 ^ uintptr_bits ∧
  length (m_acquire_list st) = 2%nat ∧
  m_instance st = Some 1%nat ∧
  (length [10; 20; 30] < 2 * 2)%nat ∧
  ∃ tr,
    run (tl ← retire_all 2 [10; 20; 30] None; thread_exit 2 tl) st =
      (Done tt, st, tr) ∧
    deleted tr ≡ₚ [10; 30].
Proof.
  cbv zeta. split; [by vm_compute|]. do 2 (split; [reflexivity|]).
  split; [simpl; lia|].
  destruct (thread_exit_flush 2
              {| m_acquire_list := [20; reset]; atomics := [];
                 m_instance := Some 1%nat |} 1 [10; 20; 30]
              eq_refl eq_refl eq_refl) as (_ & tr & Hrun & Hdel);
    [simpl; lia|].
  exists tr. split; [exact Hrun|exact Hdel].
Defined.

(** C9, as stated, fails on a move-assignment of a handle to itself: the
    handle is source and destination, and it still owns its cell
    afterwards; nothing was released, and its later destruction does
    release the cell. *)
Lemma self_move_keeps_cell :
  let hs : gmap nat hazard_pointer := {[ 7%nat := {| m_cell := Some 0%nat |} ]} in
  let st := {| m_acquire_list := [4096]; atomics := []; m_instance := None |} in
  let st' := {| m_acquire_list := [nullptr]; atomics := []; m_instance := None |} in
  run (move_assign 7 7 hs) st = (Done hs, st, []) ∧
  hs !! 7%nat = Some {| m_cell := Some 0%nat |} ∧
  hs !! 7%nat ≠ Some {| m_cell := None |} ∧
  run (hazard_pointer_dtor 7 hs) st =
    (Done (base.delete 7%nat hs), st', [(EvCellStore 0 nullptr release, st')]).
Proof.
  cbv zeta. split; [apply move_assign_self|]. split; [done|]. split; [done|].
  by apply (hazard_pointer_dtor_run 7 _ {| m_cell := Some 0%nat |});
    [|intros c [= <-]; simpl; lia].
Qed.

(** C9, amended.  Moving a handle into a different handle object (by
    construction or by assignment) gives the destination the source's cell
    and leaves the source with none, so destroying the source afterwards
    releases nothing; the move-assignment first releases the cell the
    destination owned, if any, and touches no other cell; the
    move-construction touches no cell at all.  Destroying a handle that
    owns a cell stores FREE into that cell; destroying an empty handle does
    nothing.  Assigning a handle to itself changes nothing. *)
Theorem move_spec (dst src : nat) (hs : gmap nat hazard_pointer)
    (d s : hazard_pointer) (st : shared) :
  hs !! dst = Some d →
  hs !! src = Some s →
  dst ≠ src →
  owns_valid (m_cell d) st →
  (∃ hs',
     run (move_assign dst src hs) st =
       (Done hs', released (m_cell d) st, release_trace (m_cell d) st) ∧
     hs' !! dst = Some {| m_cell := m_cell s |} ∧
     hs' !! src = Some {| m_cell := None |} ∧
     (∀ o, o ≠ dst → o ≠ src → hs' !! o = hs !! o) ∧
     ∀ st', run (hazard_pointer_dtor src hs') st' =
              (Done (base.delete src hs'), st', [])) ∧
  (∀ new, hs !! new = None →
     ∃ hs',
       run (move_ctor new src hs) st = (Done hs', st, []) ∧
       hs' !! new = Some {| m_cell := m_cell s |} ∧
       hs' !! src = Some {| m_cell := None |} ∧
       (∀ o, o ≠ new → o ≠ src → hs' !! o = hs !! o) ∧
       ∀ st', run (hazard_pointer_dtor src hs') st' =
                (Done (base.delete src hs'), st', [])) ∧
  run (hazard_pointer_dtor dst hs) st =
    (Done (base.delete dst hs), released (m_cell d) st,
     release_trace (m_cell d) st) ∧
  (∀ c, m_cell d = Some c →
     m_acquire_list (released (m_cell d) st) !! c = Some nullptr) ∧
  run (move_assign dst dst hs) st = (Done hs, st, []).
Proof.
  intros Hd Hs Hne Hvalid. split; [|split; [|split; [|split]]].
  - destruct (move_assign_run dst src hs d s st) as (hs' & Hrun & H1 & H2 & H3);
      [done..|].
    exists hs'. do 4 (split; [done|]). intros st'.
    by apply (hazard_pointer_dtor_run src hs' {| m_cell := None |}).
  - intros new Hnew.
    destruct (move_ctor_run new src hs s st) as (hs' & Hrun & H1 & H2 & H3);
      [done|congruence|].
    exists hs'. do 4 (split; [done|]). intros st'.
    by apply (hazard_pointer_dtor_run src hs' {| m_cell := None |}).
  - by apply hazard_pointer_dtor_run.
  - intros c Hc. rewrite Hc. simpl. apply list_lookup_insert_eq.
    by apply Hvalid.
  - apply move_assign_self.
Qed.

Lemma move_spec_witness :
  let hs : gmap nat hazard_pointer :=
    {[ 1%nat := {| m_cell := Some 0%nat |};
       2%nat := {| m_cell := Some 1%nat |} ]} in
  let st := {| m_acquire_list := [4096; reset]; atomics := [];
               m_instance := None |} in
  let st' := {| m_acquire_list := [nullptr; reset]; atomics := [];
                m_instance := None |} in
  hs !! 1%nat = Some {| m_cell := Some 0%nat |} ∧
  hs !! 2%nat = Some {| m_cell := Some 1%nat |} ∧
  1%nat ≠ 2%nat ∧
  owns_valid (Some 0%nat) st ∧
  ∃ hs',
    run (move_assign 1 2 hs) st =
      (Done hs', st', [(EvCellStore 0 nullptr release, st')]) ∧
    hs' !! 1%nat = Some {| m_cell := Some 1%nat |} ∧
    hs' !! 2%nat = Some {| m_cell := None |}.
Proof.
  cbv zeta.
  assert (owns_valid (Some 0%nat)
            {| m_acquire_list := [4096; reset]; atomics := [];
               m_instance := None |}) as Hvalid.
  { intros c [= <-]. simpl. lia. }
  split; [reflexivity|]. split; [reflexivity|]. split; [lia|].
  split; [exact Hvalid|].
  destruct (move_spec 1 2
              {[ 1%nat := {| m_cell := Some 0%nat |};
                 2%nat := {| m_cell := Some 1%nat |} ]}
              {| m_cell := Some 0%nat |} {| m_cell := Some 1%nat |}
              {| m_acquire_list := [4096; reset]; atomics := [];
                 m_instance := None |})
    as ((hs' & Hrun & H1 & H2 & _) & _); [reflexivity|reflexivity|lia|exact Hvalid|].
  exists hs'. split; [exact Hrun|]. split; [exact H1|exact H2].
Defined.

(** C10. [empty()] answers [true] for a handle without a cell, and for a
    handle with a cell exactly when the cell's value is null or RESET.  So
    a handle that has just captured its cell (value: the sentinel) is not
    empty, and the same handle after [reset_protection()] is empty although
    it still owns the cell. *)
Theorem empty_spec (max_objects : nat) (st : shared) (i : nat) :
  length (m_acquire_list st) = max_objects →
  m_acquire_list st !! i = Some nullptr →
  (∀ j v, (j < i)%nat → m_acquire_list st !! j = Some v → v ≠ nullptr) →
  (∀ hp st', m_cell hp = None → run (empty hp) st' = (Done true, st', [])) ∧
  (∀ hp c v st',
     m_cell hp = Some c →
     m_acquire_list st' !! c = Some v →
     run (empty hp) st' =
       (Done (bool_decide (v = nullptr ∨ v = reset)), st',
        [(EvCellLoad c relaxed v, st')])) ∧
  (∃ st1 tr,
     run (hp ← make_hazard_pointer max_objects;
          e ← empty hp;
          mret (hp, e)) st =
       (Done ({| m_cell := Some i |}, false), st1, tr) ∧
     m_acquire_list st1 !! i = Some sentinel) ∧
  (∃ st2 tr,
     run (hp ← make_hazard_pointer max_objects;
          reset_protection hp;;
          e ← empty hp;
          mret (hp, e)) st =
       (Done ({| m_cell := Some i |}, true), st2, tr) ∧
     m_acquire_list st2 !! i = Some reset).
Proof.
  intros Hlen Hi Hmin.
  pose proof (lookup_lt_Some _ _ _ Hi) as Hlt.
  split; [|split; [|split]].
  - intros hp st'. apply empty_run_none.
  - intros hp c v st' Hc Hv. rewrite (empty_run_some hp c v) by done.
    do 3 f_equal. apply eq_true_iff_eq.
    rewrite orb_true_iff, !Z.eqb_eq, bool_decide_eq_true. done.
  - rewrite run_bind, (make_hazard_pointer_run _ _ i) by done.
    rewrite run_bind.
    rewrite (empty_run_some _ i sentinel)
      by (done || by apply is_Some_lookup_cells_insert).
    eexists _, _. split; [reflexivity|].
    by apply is_Some_lookup_cells_insert.
  - rewrite run_bind, (make_hazard_pointer_run _ _ i) by done.
    unfold run at 1.
    rewrite (reset_protection_run _ _ i)
      by (done || (cbn [interfere]; by rewrite cells_set_cells, length_insert)).
    cbn [interfere tail].
    fold (run (e ← empty {| m_cell := Some i |};
               mret ({| m_cell := Some i |}, e))
              (set_cells (λ l, <[i:=reset]> l)
                 (set_cells (λ l, <[i:=sentinel]> l) st))).
    rewrite run_bind.
    rewrite (empty_run_some _ i reset);
      [|done|apply is_Some_lookup_cells_insert;
             by rewrite cells_set_cells, length_insert].
    eexists _, _. split; [reflexivity|].
    apply is_Some_lookup_cells_insert.
    by rewrite cells_set_cells, length_insert.
Qed.

Lemma empty_spec_witness :
  let st := {| m_acquire_list := [4096; nullptr]; atomics := [];
               m_instance := None |} in
  length (m_acquire_list st) = 2%nat ∧
  m_acquire_list st !! 1%nat = Some nullptr ∧
  (∃ st2 tr,
     run (hp ← make_hazard_pointer 2;
          reset_protection hp;;
          e ← empty hp;
          mret (hp, e)) st =
       (Done ({| m_cell := Some 1%nat |}, true), st2, tr) ∧
     m_acquire_list st2 !! 1%nat = Some reset) ∧
  run (empty {| m_cell := Some 0%nat |}) st =
    (Done false, st, [(EvCellLoad 0 relaxed 4096, st)]).
Proof.
  cbv zeta. split; [reflexivity|]. split; [reflexivity|].
  destruct (empty_spec 2
              {| m_acquire_list := [4096; nullptr]; atomics := [];
                 m_instance := None |} 1 eq_refl eq_refl)
    as (_ & Hsome & _ & Hreset).
  { intros [|j] v Hj; [|lia]. by intros [= <-]. }
  split; [exact Hreset|].
  exact (Hsome {| m_cell := Some 0%nat |} 0%nat 4096
           {| m_acquire_list := [4096; nullptr]; atomics := [];
              m_instance := None |} eq_refl eq_refl).
Defined.

(** C6. A guard over a handle that owns cell [c] and a source: its
    construction is one call of [protect(source)] and nothing else, and the
    guard caches the address [p] that call returned; [get], [->] and [*]
    give that address, whatever happens to the source afterwards; and
    however the block is left ([r]), the last thing it does is the
    destructor's [reset_protection()], which leaves the handle's cell in
    the RESET state.  All this holds whatever the other threads do
    ([env]).  Alone, the construction returns after one round with the
    source's value. *)
Theorem guard_spec {A} (fuel hp src : nat) (hs : gmap nat hazard_pointer)
    (h : hazard_pointer) (c : nat) (body : guard → prog (scope_exit A))
    (env : interference) (st : shared)
    (p : ptr) (st1 : shared) (tr1 : trace)
    (r : scope_exit A) (st2 : shared) (tr2 : trace) :
  hs !! hp = Some h →
  m_cell h = Some c →
  let g := {| m_hp := hp; m_ptr := p |} in
  let env1 := drop (length tr1) env in
  let env2 := drop (length tr2) env1 in
  let st3 := set_cells (λ l, <[c:=reset]> l) (interfere env2 st2) in
  exec (protect fuel h src) env st = (Done (Some p), st1, tr1) →
  exec (body g) env1 st1 = (Done r, st2, tr2) →
  (c < length (m_acquire_list (interfere env2 st2)))%nat →
  exec (guard_ctor fuel hp src hs) env st = (Done (Some g), st1, tr1) ∧
  (get g = p ∧ arrow g = p ∧ deref g = p) ∧
  exec (guarded_scope fuel hp src hs body) env st =
    (Done (Some (g, r)), st3,
     tr1 ++ tr2 ++ [(EvCellStore c reset release, st3)]) ∧
  m_acquire_list st3 !! c = Some reset ∧
  state_of reset = RESET ∧
  (∀ fuel' s v,
     (c < length (m_acquire_list s))%nat →
     atomics s !! src = Some v →
     let s1 := set_cells (λ l, <[c:=v]> l) s in
     run (guard_ctor (S fuel') hp src hs) s =
       (Done (Some {| m_hp := hp; m_ptr := v |}), s1,
        [(EvSrcLoad src relaxed v, s);
         (EvCellStore c v seq_cst, s1);
         (EvSrcLoad src acquire v, s1)])).
Proof.
  intros Hh Hcell g env1 env2 st3 Hprot Hbody Hc.
  split; [by rewrite (guard_ctor_exec _ _ _ _ h), Hprot|].
  split; [done|].
  split;
    [by apply (guarded_scope_exec fuel hp src hs h c body env st p st1 tr1
                 r st2 tr2)|].
  split; [by apply is_Some_lookup_cells_insert|].
  split; [reflexivity|].
  intros fuel' s v Hlt Hv s1. unfold run.
  rewrite (guard_ctor_exec _ _ _ _ h) by done.
  fold (run (protect (S fuel') h src) s).
  by rewrite (protect_run fuel' h c src s v).
Qed.

Lemma guard_spec_witness :
  let hs : gmap nat hazard_pointer := {[ 3%nat := {| m_cell := Some 0%nat |} ]} in
  let st := {| m_acquire_list := [sentinel]; atomics := [4096];
               m_instance := None |} in
  let swing := set_atomics (λ l, <[0%nat:=8192]> l) in
  let env := [id; id; id; swing] in
  let body := λ g : guard, mret (early_return (get g)) in
  hs !! 3%nat = Some {| m_cell := Some 0%nat |} ∧
  (exec (protect 1 {| m_cell := Some 0%nat |} 0) env st).1.1 = Done (Some 4096) ∧
  (exec (guarded_scope 1 3 0 hs body) env st).1 =
    (Done (Some ({| m_hp := 3; m_ptr := 4096 |}, early_return 4096)),
     {| m_acquire_list := [reset]; atomics := [8192]; m_instance := None |}).
Proof.
  cbv zeta. split; [reflexivity|]. split; [reflexivity|].
  edestruct (guard_spec 1 3 0
               {[ 3%nat := {| m_cell := Some 0%nat |} ]}
               {| m_cell := Some 0%nat |} 0
               (λ g : guard, mret (early_return (get g)))
               [id; id; id; set_atomics (λ l, <[0%nat:=8192]> l)]
               {| m_acquire_list := [sentinel]; atomics := [4096];
                  m_instance := None |})
    as (_ & _ & Hscope & _);
    [reflexivity|reflexivity|reflexivity|reflexivity|simpl; lia|].
  rewrite Hscope. reflexivity.
Defined.


(** * Further properties of the code *)

(** ** Scans and passes under interference *)

(** A scan over the cells [k, k + n), whatever the other threads do: it
    returns, it only loads, each load returns what the cell holds then, and
    the answer is [true] exactly when the last value loaded is the address
    looked for. *)
Lemma scan_loop_exec (p : ptr) (n k : nat) env st :
  fixed_array env →
  (k + n ≤ length (m_acquire_list st))%nat →
  ∃ b st' tr vs,
    exec (scan_loop (seq k n) p) env st = (Done b, st', tr) ∧
    length (m_acquire_list st') = length (m_acquire_list st) ∧
    length tr = length vs ∧
    (length vs ≤ n)%nat ∧
    events tr = scan_loads k vs ∧
    loads_observed tr ∧
    reads_and_deletes tr ∧
    deleted tr = [] ∧
    if b then
      ∃ vs0, vs = vs0 ++ [p] ∧ Forall (λ v, is_hazard v p = false) vs0 ∧
             is_hazard p p = true
    else length vs = n ∧ Forall (λ v, is_hazard v p = false) vs.
Proof.
  revert k env st; induction n as [|n IH]; intros k env st Henv Hlen.
  - exists false, st, [], []. simpl. repeat split; by constructor.
  - cbn [seq scan_loop]. rewrite exec_cell_load.
    pose proof (fixed_array_interfere env st Henv) as Hl.
    destruct (lookup_lt_is_Some_2 (m_acquire_list (interfere env st)) k)
      as [h Hh]; [lia|].
    rewrite Hh. destruct (is_hazard h p) eqn:E.
    + exists true, (interfere env st), [(EvCellLoad k seq_cst h, interfere env st)], [h].
      pose proof E as E'. apply is_hazard_spec in E' as [-> ?].
      repeat split; try done.
      * simpl. lia.
      * by rewrite scan_loads_cons.
      * by repeat constructor.
      * by repeat constructor.
      * exists []. by repeat split.
    + destruct (IH (S k) (tail env) (interfere env st))
        as (b & st' & tr & vs & Hrun & Hl' & Hn & Hle & Hev & Hobs & Hrd & Hdel & Hb).
      { by apply fixed_array_tail. }
      { lia. }
      rewrite Hrun. unfold emit. cbn [fst snd].
      exists b, st', ((EvCellLoad k seq_cst h, interfere env st) :: tr), (h :: vs).
      split; [done|]. split; [congruence|]. split; [simpl; congruence|].
      split; [simpl; lia|].
      split; [by rewrite scan_loads_cons, <- Hev|].
      split; [by constructor|]. split; [by constructor|]. split; [done|].
      destruct b.
      * destruct Hb as (vs0 & -> & Hall & Hp). exists (h :: vs0).
        split; [done|]. split; [by constructor|done].
      * destruct Hb as [Hvs Hall]. split; [simpl; congruence|by constructor].
Qed.

Lemma loads_observed_app (t1 t2 : trace) :
  loads_observed t1 → loads_observed t2 → loads_observed (t1 ++ t2).
Proof. apply Forall_app_2. Qed.

Lemma reads_and_deletes_app (t1 t2 : trace) :
  reads_and_deletes t1 → reads_and_deletes t2 → reads_and_deletes (t1 ++ t2).
Proof. apply Forall_app_2. Qed.

Lemma take_swap_in (buf : list ptr) (it d : nat) (q x : ptr) :
  (0 < d)%nat →
  buf !! it = Some q →
  buf !! (it + d)%nat = Some x →
  q :: take (it + d) (<[it:=x]> buf) ≡ₚ take (it + S d) buf.
Proof.
  intros Hd Hq Hx.
  replace (it + S d)%nat with (S (it + d)) by lia.
  rewrite (take_S_r _ _ _ Hx), take_insert_lt by lia.
  set (L := take (it + d) buf).
  assert (L !! it = Some q) as HL by (unfold L; by rewrite lookup_take_lt by lia).
  rewrite insert_take_drop by (by eapply lookup_lt_Some).
  rewrite <- (take_drop_middle L it q HL) at 3.
  rewrite <- !Permutation_middle, app_nil_r. apply perm_swap.
Qed.

(** The loop of [delete_hazards] under interference: it returns, it only
    reads cells and deletes, and what it keeps together with what it
    deletes is what it was given. *)
Lemma delete_hazards_from_exec (max_objects : nat) (dist : nat)
    (buf : list ptr) (it : nat) env st :
  fixed_array env →
  length (m_acquire_list st) = max_objects →
  (it + dist ≤ length buf)%nat →
  ∃ kept st' tr,
    exec (delete_hazards_from max_objects dist buf it) env st =
      (Done kept, st', tr) ∧
    length (m_acquire_list st') = max_objects ∧
    kept ++ deleted tr ≡ₚ take (it + dist) buf ∧
    reads_and_deletes tr ∧
    loads_observed tr.
Proof.
  revert buf it env st; induction dist as [|d IH];
    intros buf it env st Henv Hlen Hle.
  - exists (take it buf), st, []. simpl.
    rewrite Nat.add_0_r, app_nil_r. repeat split; done || by constructor.
  - destruct (lookup_lt_is_Some_2 buf it) as [q Hq]; [lia|].
    cbn [delete_hazards_from]. rewrite Hq, exec_bind.
    destruct (scan_loop_exec q max_objects 0 env st Henv)
      as (b & st1 & tr1 & vs & Hscan & Hl1 & _ & _ & _ & Hobs1 & Hrd1 & Hdel1 & _);
      [lia|].
    unfold scan_for_hazard. rewrite Hscan. unfold prepend.
    pose proof (fixed_array_drop (length tr1) env Henv) as Henv1.
    set (env1 := drop (length tr1) env) in *.
    destruct b.
    + destruct (IH buf (S it) env1 st1)
        as (kept & st' & tr & Hrun & Hl' & Hperm & Hrd & Hobs);
        [done|lia|lia|].
      rewrite Hrun. exists kept, st', (tr1 ++ tr). cbn [fst snd].
      split; [done|]. split; [done|].
      split; [|split; [by apply reads_and_deletes_app|by apply loads_observed_app]].
      rewrite deleted_app, Hdel1, app_nil_l, Hperm.
      by replace (S it + d)%nat with (it + S d)%nat by lia.
    + rewrite exec_delete.
      pose proof (fixed_array_interfere env1 st1 Henv1) as Hl2.
      pose proof (fixed_array_tail env1 Henv1) as Henv2.
      destruct (lookup_lt_is_Some_2 buf (it + d)) as [x Hx]; [lia|].
      case_decide as Hne.
      * rewrite Hx.
        destruct (IH (<[it:=x]> buf) it (tail env1) (interfere env1 st1))
          as (kept & st' & tr & Hrun & Hl' & Hperm & Hrd & Hobs);
          [done|lia|rewrite length_insert; lia|].
        rewrite Hrun. unfold emit. cbn [fst snd].
        eexists kept, st', _. split; [reflexivity|]. split; [done|].
        split; [|split].
        -- rewrite deleted_app, Hdel1, app_nil_l, deleted_cons_delete.
           rewrite <- Permutation_middle, Hperm.
           apply take_swap_in; [lia|done..].
        -- apply reads_and_deletes_app; [done|]. by constructor.
        -- apply loads_observed_app; [done|]. by constructor.
      * assert (d = 0%nat) as -> by lia.
        cbn [delete_hazards_from]. unfold mret, prog_ret. cbn [exec].
        unfold emit. cbn [fst snd].
        eexists (take it buf), _, _. split; [reflexivity|].
        split; [lia|]. split; [|split].
        -- rewrite deleted_app, Hdel1, app_nil_l, deleted_cons_delete.
           replace (it + 1)%nat with (S it) by lia.
           by rewrite (take_S_r _ _ _ Hq).
        -- apply reads_and_deletes_app; [done|]. by repeat constructor.
        -- apply loads_observed_app; [done|]. by repeat constructor.
Qed.

Lemma is_hazard_self_protecting (p : ptr) :
  is_hazard p p = true → state_of p = PROTECTING p.
Proof.
  intros (_ & Hn & Hs & Hr)%is_hazard_spec. unfold state_of.
  by rewrite (proj2 (Z.eqb_neq _ _) Hn), (proj2 (Z.eqb_neq _ _) Hs),
             (proj2 (Z.eqb_neq _ _) Hr).
Qed.

(** X1. [scan_for_hazard(ptr)], whatever the other threads do: it always
    returns; it performs only seq_cst loads, of cells 0, 1, ... in order,
    each returning what the cell holds at that moment; it answers [true]
    only when the last value it loaded is [ptr] itself and [ptr] is none of
    the reserved encodings, and [false] only after it has loaded every cell
    and none of the values loaded was a hazard for [ptr]. *)
Theorem scan_for_hazard_observes (max_objects : nat) (p : ptr)
    (env : interference) (st : shared) :
  fixed_array env →
  length (m_acquire_list st) = max_objects →
  ∃ b st' tr vs,
    exec (scan_for_hazard max_objects p) env st = (Done b, st', tr) ∧
    events tr = scan_loads 0 vs ∧
    loads_observed tr ∧
    (length vs ≤ max_objects)%nat ∧
    if b then
      ∃ vs0, vs = vs0 ++ [p] ∧ Forall (λ v, is_hazard v p = false) vs0 ∧
             state_of p = PROTECTING p
    else length vs = max_objects ∧ Forall (λ v, is_hazard v p = false) vs.
Proof.
  intros Henv Hlen.
  destruct (scan_loop_exec p max_objects 0 env st Henv)
    as (b & st' & tr & vs & Hscan & _ & _ & Hle & Hev & Hobs & _ & _ & Hb);
    [lia|].
  exists b, st', tr, vs. do 4 (split; [done|]).
  destruct b; [|done]. destruct Hb as (vs0 & -> & Hall & Hp).
  exists vs0. split; [done|]. split; [done|].
  by apply is_hazard_self_protecting.
Qed.

Lemma scan_for_hazard_observes_witness :
  let st := {| m_acquire_list := [reset; 4096]; atomics := [];
               m_instance := None |} in
  let env := [id; set_cells (λ l, <[1%nat:=8192]> l)] in
  fixed_array env ∧
  length (m_acquire_list st) = 2%nat ∧
  ∃ b st' tr vs,
    exec (scan_for_hazard 2 4096) env st = (Done b, st', tr) ∧
    events tr = scan_loads 0 vs ∧
    loads_observed tr ∧
    (length vs ≤ 2)%nat ∧
    if b then
      ∃ vs0, vs = vs0 ++ [4096] ∧ Forall (λ v, is_hazard v 4096 = false) vs0 ∧
             state_of 4096 = PROTECTING 4096
    else length vs = 2%nat ∧ Forall (λ v, is_hazard v 4096 = false) vs.
Proof.
  cbv zeta.
  assert (fixed_array [id; set_cells (λ l, <[1%nat:=8192]> l)]) as Henv.
  { repeat constructor. intros s. by rewrite cells_set_cells, length_insert. }
  split; [exact Henv|]. split; [reflexivity|].
  exact (scan_for_hazard_observes 2 4096 _
           {| m_acquire_list := [reset; 4096]; atomics := [];
              m_instance := None |} Henv eq_refl).
Defined.

(** X2. [delete_hazards(buffer)], whatever the other threads do: it always
    returns; it writes no cell (its operations are seq_cst cell loads and
    deletions only); and the entries it keeps together with the objects it
    deletes are exactly the entries it was given, each once: no entry is
    lost and none is deleted twice. *)
Theorem delete_hazards_conserves (max_objects : nat) (buf : list ptr)
    (env : interference) (st : shared) :
  fixed_array env →
  length (m_acquire_list st) = max_objects →
  ∃ kept st' tr,
    exec (delete_hazards max_objects buf) env st = (Done kept, st', tr) ∧
    kept ++ deleted tr ≡ₚ buf ∧
    reads_and_deletes tr ∧
    loads_observed tr.
Proof.
  intros Henv Hlen.
  destruct (delete_hazards_from_exec max_objects (length buf) buf 0 env st
              Henv Hlen)
    as (kept & st' & tr & Hrun & _ & Hperm & Hrd & Hobs); [simpl; lia|].
  exists kept, st', tr. split; [exact Hrun|].
  split; [|done]. by rewrite Hperm, take_ge by (simpl; lia).
Qed.

Lemma delete_hazards_conserves_witness :
  let st := {| m_acquire_list := [reset; 20]; atomics := [];
               m_instance := None |} in
  let env := [id; id; id; set_cells (λ l, <[0%nat:=30]> l)] in
  fixed_array env ∧
  length (m_acquire_list st) = 2%nat ∧
  ∃ kept st' tr,
    exec (delete_hazards 2 [10; 20; 30]) env st = (Done kept, st', tr) ∧
    kept ++ deleted tr ≡ₚ [10; 20; 30] ∧
    reads_and_deletes tr ∧
    loads_observed tr.
Proof.
  cbv zeta.
  assert (fixed_array [id; id; id; set_cells (λ l, <[0%nat:=30]> l)]) as Henv.
  { repeat constructor. intros s. by rewrite cells_set_cells, length_insert. }
  split; [exact Henv|]. split; [reflexivity|].
  exact (delete_hazards_conserves 2 [10; 20; 30] _
           {| m_acquire_list := [reset; 20]; atomics := [];
              m_instance := None |} Henv eq_refl).
Defined.

(** ** Ownership of cells *)

Lemma keeps_nonnull_interfere c env st :
  keeps_nonnull c env → nonnull_at c st → nonnull_at c (interfere env st).
Proof. destruct env as [|f env]; [done|]. intros H. inversion H; auto. Qed.

Lemma keeps_nonnull_tail c env : keeps_nonnull c env → keeps_nonnull c (tail env).
Proof. destruct env as [|f env]; [done|]. intros H. by inversion H. Qed.

Lemma capture_loop_respects (cells : list nat) (c : nat) env st out st' tr :
  keeps_nonnull c env →
  nonnull_at c st →
  exec (capture_loop cells) env st = (out, st', tr) →
  out ≠ Done c ∧ nonnull_at c st'.
Proof.
  revert env st out st' tr; induction cells as [|cell rest IH];
    intros env st out st' tr Henv Hc.
  - simpl. by intros [= <- <- <-].
  - cbn [capture_loop]. rewrite exec_cell_load.
    pose proof (keeps_nonnull_interfere _ _ _ Henv Hc) as Hc1.
    pose proof (keeps_nonnull_tail _ _ Henv) as Henv1.
    destruct (m_acquire_list (interfere env st) !! cell) as [v|] eqn:Hv;
      [|by intros [= <- <- <-]].
    destruct (v =? nullptr) eqn:E.
    + apply Z.eqb_eq in E as ->.
      assert (cell ≠ c) as Hne.
      { intros ->. destruct Hc1 as (w & Hw & ?). congruence. }
      rewrite exec_cas.
      pose proof (keeps_nonnull_interfere _ _ _ Henv1 Hc1) as Hc2.
      destruct (m_acquire_list (interfere (tail env) (interfere env st)) !! cell)
        as [w|] eqn:Hw; [|by intros [= <- <- <-]].
      destruct (w =? nullptr).
      * simpl. intros [= <- <- <-]. split; [congruence|].
        destruct Hc2 as (u & Hu & ?). exists u. split; [|done].
        by rewrite cells_set_cells, list_lookup_insert_ne.
      * destruct (exec (capture_loop rest) _ _) as [[o s] t] eqn:Hrest.
        apply IH in Hrest; [|by apply keeps_nonnull_tail|done].
        unfold emit. simpl. by intros [= <- <- <-].
    + destruct (exec (capture_loop rest) _ _) as [[o s] t] eqn:Hrest.
      apply IH in Hrest; [|done..].
      unfold emit. simpl. by intros [= <- <- <-].
Qed.

(** X3. As long as a cell keeps a value other than null (the sentinel,
    RESET or a non-null address), no [capture_cell] claims it, whatever the
    interleaving: the sweep never returns that cell and leaves its value
    non-null. *)
Theorem capture_respects_owner (max_objects : nat) (c : nat)
    (env : interference) (st : shared) out st' tr :
  keeps_nonnull c env →
  nonnull_at c st →
  exec (capture_cell max_objects) env st = (out, st', tr) →
  out ≠ Done c ∧ nonnull_at c st'.
Proof. intros Henv Hc. by apply capture_loop_respects. Qed.

Lemma capture_respects_owner_witness :
  let st := {| m_acquire_list := [reset; nullptr]; atomics := [];
               m_instance := None |} in
  let env := [set_cells (λ l, <[0%nat:=4096]> l)] in
  keeps_nonnull 0 env ∧
  nonnull_at 0 st ∧
  (exec (capture_cell 2) env st).1.1 = Done 1%nat ∧
  (exec (capture_cell 2) env st).1.1 ≠ Done 0%nat.
Proof.
  cbv zeta.
  assert (keeps_nonnull 0 [set_cells (λ l, <[0%nat:=4096]> l)]) as Henv.
  { repeat constructor. intros s (v & Hv & _). exists 4096.
    split; [|done]. rewrite cells_set_cells. apply list_lookup_insert_eq.
    by eapply lookup_lt_Some. }
  assert (nonnull_at 0 {| m_acquire_list := [reset; nullptr]; atomics := [];
                          m_instance := None |}) as Hc.
  { exists reset. by split. }
  split; [exact Henv|]. split; [exact Hc|]. split; [reflexivity|].
  eapply (capture_respects_owner 2 0 _ _ _ _ _ Henv Hc). reflexivity.
Defined.

(** ** The domain object *)

(** X4. The first domain constructed becomes [m_instance] and stays it: a
    later constructor changes nothing, no constructor touches the cells or
    the sources, and a thread whose first [retire] comes afterwards binds
    its retire buffer to that first domain, so its flush at thread exit is
    not skipped. *)
Theorem hazard_domain_first_wins (a b : nat) (st : shared) :
  let first := default a (m_instance st) in
  ∃ st1 tr1 tr2 tr3,
    run (hazard_domain_ctor a) st = (Done tt, st1, tr1) ∧
    m_instance st1 = Some first ∧
    m_acquire_list st1 = m_acquire_list st ∧
    atomics st1 = atomics st ∧
    run (hazard_domain_ctor b) st1 = (Done tt, st1, tr2) ∧
    run (tl_retires None) st1 =
      (Done {| buffer := []; domain_ref := Some first |}, st1, tr3).
Proof.
  intros first. rewrite hazard_domain_ctor_run. unfold first.
  destruct (m_instance st) as [d|] eqn:Hd.
  - eexists st, _, _, _. split; [reflexivity|]. do 3 (split; [done|]).
    rewrite hazard_domain_ctor_run, Hd. split; [reflexivity|].
    unfold run, tl_retires. rewrite exec_instance_load.
    cbn [interfere tail]. rewrite Hd. reflexivity.
  - eexists (set_instance (Some a) st), _, _, _. split; [reflexivity|].
    do 3 (split; [done|]).
    rewrite hazard_domain_ctor_run. cbn [set_instance m_instance].
    split; reflexivity.
Qed.

(** ** Capture and release *)

Lemma set_cells_release_captured (st : shared) (i : nat) :
  m_acquire_list st !! i = Some nullptr →
  set_cells (λ l, <[i:=nullptr]> l) (set_cells (λ l, <[i:=sentinel]> l) st) = st.
Proof.
  intros Hi. destruct st as [cells srcs inst]. unfold set_cells. simpl in *.
  f_equal. rewrite list_insert_insert_eq. by apply list_insert_id.
Qed.

(** X5. Capture followed by release is a round trip: [release_cell] of the
    cell that [capture_cell] has just claimed restores the cell array
    exactly, so the same sweep claims the same cell again;
    [release_cell(nullptr)] does nothing. *)
Theorem capture_release_roundtrip (max_objects : nat) (st : shared) (i : nat) :
  length (m_acquire_list st) = max_objects →
  m_acquire_list st !! i = Some nullptr →
  (∀ j v, (j < i)%nat → m_acquire_list st !! j = Some v → v ≠ nullptr) →
  let claimed := set_cells (λ l, <[i:=sentinel]> l) st in
  let sweep :=
    sweep_loads st 0 (take (S i) (m_acquire_list st)) ++
    [(EvCellCas i nullptr sentinel acq_rel true, claimed)] in
  run (c ← capture_cell max_objects; release_cell (Some c);; mret c) st =
    (Done i, st, sweep ++ [(EvCellStore i nullptr release, st)]) ∧
  run (c ← capture_cell max_objects; release_cell (Some c);;
       capture_cell max_objects) st =
    (Done i, claimed,
     sweep ++ [(EvCellStore i nullptr release, st)] ++ sweep) ∧
  run (release_cell None) st = (Done tt, st, []).
Proof.
  intros Hlen Hi Hmin claimed sweep. subst sweep claimed.
  pose proof (lookup_lt_Some _ _ _ Hi) as Hlt.
  assert ((i < length (m_acquire_list
                         (set_cells (λ l, <[i:=sentinel]> l) st)))%nat) as Hlt'
    by (by rewrite cells_set_cells, length_insert).
  split; [|split; [|done]].
  - rewrite run_bind, (capture_cell_first_free _ _ i) by done.
    rewrite run_release_cell by done.
    rewrite !set_cells_release_captured by done.
    unfold prepend, emit, run. simpl. reflexivity.
  - rewrite run_bind, (capture_cell_first_free _ _ i) by done.
    rewrite run_release_cell by done.
    rewrite !set_cells_release_captured by done.
    rewrite (capture_cell_first_free _ _ i) by done.
    unfold prepend, emit. simpl. reflexivity.
Qed.

Lemma capture_release_roundtrip_witness :
  let st := {| m_acquire_list := [4096; nullptr; nullptr]; atomics := [];
               m_instance := None |} in
  length (m_acquire_list st) = 3%nat ∧
  m_acquire_list st !! 1%nat = Some nullptr ∧
  (run (c ← capture_cell 3; release_cell (Some c);; mret c) st).1 =
    (Done 1%nat, st).
Proof.
  cbv zeta. split; [reflexivity|]. split; [reflexivity|].
  edestruct (capture_release_roundtrip 3
               {| m_acquire_list := [4096; nullptr; nullptr]; atomics := [];
                  m_instance := None |} 1) as (Hrt & _);
    [reflexivity|reflexivity| |].
  - intros [|j] v Hj; [|lia]. by intros [= <-].
  - by rewrite Hrt.
Defined.

(** X6. When every cell is taken [make_hazard_pointer] aborts; destroying
    one handle first frees exactly its cell, and the next
    [make_hazard_pointer] gets that very cell. *)
Theorem dtor_frees_capacity (max_objects : nat) (st : shared) (this : nat)
    (hs : gmap nat hazard_pointer) (t : hazard_pointer) (c : nat) :
  length (m_acquire_list st) = max_objects →
  Forall (λ v, v ≠ nullptr) (m_acquire_list st) →
  hs !! this = Some t →
  m_cell t = Some c →
  (c < max_objects)%nat →
  run (make_hazard_pointer max_objects) st =
    (Failed aborted, st, sweep_loads st 0 (m_acquire_list st)) ∧
  ∃ tr,
    run (hs' ← hazard_pointer_dtor this hs;
         h ← make_hazard_pointer max_objects;
         mret (hs', h)) st =
      (Done (base.delete this hs, {| m_cell := Some c |}),
       set_cells (λ l, <[c:=sentinel]> l) st, tr).
Proof.
  intros Hlen Hfull Ht Hc Hlt. split.
  - unfold make_hazard_pointer.
    by rewrite run_bind, capture_cell_exhausted.
  - rewrite run_bind, (hazard_pointer_dtor_run this hs t)
      by (done || (intros c'; rewrite Hc; intros [= <-]; lia)).
    rewrite Hc. cbn [released]. rewrite run_bind.
    rewrite (make_hazard_pointer_run _ _ c).
    + eexists. unfold prepend, run. simpl. f_equal. f_equal.
      destruct st as [cells srcs inst]. unfold set_cells. simpl.
      by rewrite list_insert_insert_eq.
    + by rewrite cells_set_cells, length_insert.
    + rewrite cells_set_cells. apply list_lookup_insert_eq. lia.
    + intros j v Hj. rewrite cells_set_cells, list_lookup_insert_ne by lia.
      intros Hv. rewrite Forall_lookup in Hfull. by eapply Hfull.
Qed.

Lemma dtor_frees_capacity_witness :
  let st := {| m_acquire_list := [4096; reset]; atomics := [];
               m_instance := None |} in
  let hs : gmap nat hazard_pointer := {[ 9%nat := {| m_cell := Some 1%nat |} ]} in
  length (m_acquire_list st) = 2%nat ∧
  Forall (λ v, v ≠ nullptr) (m_acquire_list st) ∧
  hs !! 9%nat = Some {| m_cell := Some 1%nat |} ∧
  (run (make_hazard_pointer 2) st).1.1 = Failed aborted ∧
  (run (hs' ← hazard_pointer_dtor 9 hs;
        h ← make_hazard_pointer 2;
        mret (hs', h)) st).1 =
    (Done (base.delete 9%nat hs, {| m_cell := Some 1%nat |}),
     {| m_acquire_list := [4096; sentinel]; atomics := []; m_instance := None |}).
Proof.
  cbv zeta.
  assert (Forall (λ v, v ≠ nullptr) [4096; reset]) as Hfull
    by (repeat constructor; by vm_compute).
  split; [reflexivity|]. split; [exact Hfull|]. split; [reflexivity|].
  edestruct (dtor_frees_capacity 2
               {| m_acquire_list := [4096; reset]; atomics := [];
                  m_instance := None |} 9
               {[ 9%nat := {| m_cell := Some 1%nat |} ]}
               {| m_cell := Some 1%nat |} 1) as (Habort & tr & Hrun);
    [reflexivity|exact Hfull|reflexivity|reflexivity|lia|].
  split; [by rewrite Habort|]. by rewrite Hrun.
Defined.

(** ** Swapping handles *)

(** X7. [swap] exchanges the cells of two handles and nothing else: it
    performs no operation on the cell array, other handles are untouched,
    and swapping again restores the handles (swapping a handle with itself
    included). *)
Theorem swap_spec (a b : nat) (hs : gmap nat hazard_pointer)
    (x y : hazard_pointer) (st : shared) :
  hs !! a = Some x →
  hs !! b = Some y →
  ∃ hs1,
    run (swap a b hs) st = (Done hs1, st, []) ∧
    hs1 !! a = Some y ∧
    hs1 !! b = Some x ∧
    (∀ o, o ≠ a → o ≠ b → hs1 !! o = hs !! o) ∧
    run (swap a b hs1) st = (Done hs, st, []).
Proof.
  intros Ha Hb. unfold swap. rewrite Ha, Hb.
  exists (<[a:=y]> (<[b:=x]> hs)). split; [done|].
  assert ((<[a:=y]> (<[b:=x]> hs)) !! b = Some x) as Hb1.
  { destruct (decide (a = b)) as [->|Hne].
    - rewrite lookup_insert_eq. congruence.
    - by rewrite lookup_insert_ne, lookup_insert_eq. }
  split; [by rewrite lookup_insert_eq|]. split; [done|].
  split; [intros o ??; by rewrite !lookup_insert_ne|].
  rewrite lookup_insert_eq, Hb1.
  assert (<[a:=x]> (<[b:=y]> (<[a:=y]> (<[b:=x]> hs))) = hs) as ->; [|done].
  apply map_eq. intros o.
  destruct (decide (o = a)) as [->|Hoa]; [by rewrite lookup_insert_eq|].
  rewrite lookup_insert_ne by done.
  destruct (decide (o = b)) as [->|Hob]; [by rewrite lookup_insert_eq|].
  by rewrite !lookup_insert_ne.
Qed.

Lemma swap_spec_witness :
  let hs : gmap nat hazard_pointer :=
    {[ 1%nat := {| m_cell := Some 0%nat |}; 2%nat := {| m_cell := None |} ]} in
  let st := {| m_acquire_list := [4096]; atomics := []; m_instance := None |} in
  hs !! 1%nat = Some {| m_cell := Some 0%nat |} ∧
  hs !! 2%nat = Some {| m_cell := None |} ∧
  ∃ hs1,
    run (swap 1 2 hs) st = (Done hs1, st, []) ∧
    hs1 !! 1%nat = Some {| m_cell := None |} ∧
    hs1 !! 2%nat = Some {| m_cell := Some 0%nat |} ∧
    run (swap 1 2 hs1) st = (Done hs, st, []).
Proof.
  cbv zeta. split; [reflexivity|]. split; [reflexivity|].
  edestruct (swap_spec 1 2
               {[ 1%nat := {| m_cell := Some 0%nat |};
                  2%nat := {| m_cell := None |} ]}
               {| m_cell := Some 0%nat |} {| m_cell := None |}
               {| m_acquire_list := [4096]; atomics := []; m_instance := None |})
    as (hs1 & Hrun & H1 & H2 & _ & Hback); [reflexivity|reflexivity|].
  exists hs1. split; [exact Hrun|]. split; [exact H1|].
  split; [exact H2|exact Hback].
Defined.

(** ** protect *)

Lemma owned_cell_interfere c env st :
  owned_cell c env →
  m_acquire_list (interfere env st) !! c = m_acquire_list st !! c.
Proof. destruct env as [|f env]; [done|]. intros H. inversion H; auto. Qed.

Lemma owned_cell_tail c env : owned_cell c env → owned_cell c (tail env).
Proof. destruct env as [|f env]; [done|]. intros H. by inversion H. Qed.

Lemma owned_cell_drop c n env : owned_cell c env → owned_cell c (drop n env).
Proof. apply Forall_drop. Qed.

(** The spin of [protect] ends at a reload that finds the source equal to
    what the cell holds. *)
Lemma protect_loop_linearizable (hp : hazard_pointer) (c src : nat)
    (fuel : nat) :
  m_cell hp = Some c →
  ∀ env st candidate,
    fixed_array env →
    source_alive src env →
    owned_cell c env →
    (c < length (m_acquire_list st))%nat →
    is_Some (atomics st !! src) →
    (length env + 2 ≤ fuel)%nat ∨
      (env = [] ∧ atomics st !! src = Some candidate ∧ (1 ≤ fuel)%nat) →
    ∃ p st' tr,
      exec (protect_loop fuel hp candidate src) env st = (Done (Some p), st', tr) ∧
      last tr = Some (EvSrcLoad src acquire p, st') ∧
      atomics st' !! src = Some p ∧
      m_acquire_list st' !! c = Some p.
Proof.
  intros Hcell. induction fuel as [|fuel IH];
    intros env st candidate Henv Halive Hown Hc Hsrc Hfuel; [lia|].
  cbn [protect_loop]. rewrite exec_bind.
  set (published := set_cells (λ l, <[c:=candidate]> l) (interfere env st)).
  set (reloaded := interfere (tail env) published).
  assert (is_Some (atomics reloaded !! src)) as [current Hcur].
  { apply source_alive_interfere; [by apply source_alive_tail|].
    by apply (source_alive_interfere src env st). }
  destruct (try_protect_exec hp c candidate src env st current Hcell Henv Hc Hcur)
    as [_ Htry].
  rewrite Htry. destruct (current =? candidate) eqn:E.
  - apply Z.eqb_eq in E as ->.
    exists candidate, reloaded,
      [(EvCellStore c candidate seq_cst, published);
       (EvSrcLoad src acquire candidate, reloaded)].
    split; [reflexivity|]. split; [done|]. split; [done|].
    unfold reloaded. rewrite owned_cell_interfere by (by apply owned_cell_tail).
    unfold published. rewrite cells_set_cells. apply list_lookup_insert_eq.
    by rewrite fixed_array_interfere.
  - cbn [fst snd length]. unfold prepend. rewrite exec_pause.
    set (env' := drop 3 env).
    set (cleared := set_cells (λ l, <[c:=reset]> l)
                      (interfere (tail (tail env)) reloaded)).
    destruct (IH (tail env') (interfere env' cleared) current)
      as (p & st' & tr & Hloop & Hlast & Hsrc' & Hcell').
    + by apply fixed_array_tail, fixed_array_drop.
    + by apply source_alive_tail, source_alive_drop.
    + by apply owned_cell_tail, owned_cell_drop.
    + rewrite (fixed_array_interfere env') by (by apply fixed_array_drop).
      unfold cleared. rewrite cells_set_cells, length_insert.
      rewrite (fixed_array_interfere (tail (tail env)))
        by (by do 2 apply fixed_array_tail).
      unfold reloaded.
      rewrite (fixed_array_interfere (tail env)) by (by apply fixed_array_tail).
      unfold published. rewrite cells_set_cells, length_insert.
      by rewrite (fixed_array_interfere env).
    + apply source_alive_interfere; [by apply source_alive_drop|].
      unfold cleared. cbn [set_cells atomics].
      apply source_alive_interfere; [by do 2 apply source_alive_tail|done].
    + destruct env as [|f env].
      * right. split; [done|]. split; [exact Hcur|].
        destruct Hfuel as [?|(_ & Hst & _)]; [simpl in *; lia|].
        cbn in Hcur. rewrite Hst in Hcur. injection Hcur as ->.
        by rewrite Z.eqb_refl in E.
      * left. destruct Hfuel as [Hfuel|[? _]]; [|done].
        unfold env'. rewrite tail_drop, length_drop. simpl in *. lia.
    + unfold cleared, reloaded, published in Hloop.
      rewrite Hloop. unfold emit. cbn [fst snd].
      eexists _, _, _. split; [reflexivity|].
      split; [|done]. rewrite !last_app, !last_cons, Hlast. done.
Qed.

(** X8. [protect(src)] against writers that change the source finitely
    often, leave the source alive and do not write this handle's cell: with
    one round per possible interference and one more, it returns; its last
    operation is an acquire reload of the source that returned the address
    [p] it hands back; and at that moment the source holds [p] and the
    handle's cell holds [p], so the address returned was the source's value
    at an instant during the call at which it was already published. *)
Theorem protect_linearizable (hp : hazard_pointer) (c src : nat)
    (env : interference) (st : shared) :
  m_cell hp = Some c →
  fixed_array env →
  source_alive src env →
  owned_cell c env →
  (c < length (m_acquire_list st))%nat →
  is_Some (atomics st !! src) →
  ∃ p st' tr,
    exec (protect (length env + 1) hp src) env st = (Done (Some p), st', tr) ∧
    last tr = Some (EvSrcLoad src acquire p, st') ∧
    atomics st' !! src = Some p ∧
    m_acquire_list st' !! c = Some p.
Proof.
  intros Hcell Henv Halive Hown Hc Hsrc. unfold protect. rewrite exec_src_load.
  destruct (source_alive_interfere src env st Halive Hsrc) as [v Hv].
  rewrite Hv.
  destruct (protect_loop_linearizable hp c src (length env + 1) Hcell
              (tail env) (interfere env st) v)
    as (p & st' & tr & Hloop & Hlast & Hsrc' & Hcell').
  - by apply fixed_array_tail.
  - by apply source_alive_tail.
  - by apply owned_cell_tail.
  - by rewrite fixed_array_interfere.
  - by rewrite Hv.
  - destruct env as [|f env]; [right; split; [done|]; split; [done|simpl; lia]|].
    left. simpl. lia.
  - rewrite Hloop. unfold emit. cbn [fst snd].
    eexists _, _, _. split; [reflexivity|].
    split; [|done]. by rewrite last_cons, Hlast.
Qed.

Lemma protect_linearizable_witness :
  let hp := {| m_cell := Some 0%nat |} in
  let st := {| m_acquire_list := [sentinel]; atomics := [4096];
               m_instance := None |} in
  let env := [id; id; set_atomics (λ l, <[0%nat:=8192]> l)] in
  m_cell hp = Some 0%nat ∧
  fixed_array env ∧
  source_alive 0 env ∧
  owned_cell 0 env ∧
  (0 < length (m_acquire_list st))%nat ∧
  is_Some (atomics st !! 0%nat) ∧
  (exec (protect 4 hp 0) env st).1 =
    (Done (Some 8192),
     {| m_acquire_list := [8192]; atomics := [8192]; m_instance := None |}) ∧
  ∃ p st' tr,
    exec (protect 4 hp 0) env st = (Done (Some p), st', tr) ∧
    last tr = Some (EvSrcLoad 0 acquire p, st') ∧
    atomics st' !! 0%nat = Some p ∧
    m_acquire_list st' !! 0%nat = Some p.
Proof.
  cbv zeta.
  assert (fixed_array [id; id; set_atomics (λ l, <[0%nat:=8192]> l)]) as H1
    by repeat constructor.
  assert (source_alive 0 [id; id; set_atomics (λ l, <[0%nat:=8192]> l)]) as H2.
  { repeat constructor; try done. intros s [v Hv]. exists 8192.
    cbn [set_atomics atomics]. apply list_lookup_insert_eq.
    by eapply lookup_lt_Some. }
  assert (owned_cell 0 [id; id; set_atomics (λ l, <[0%nat:=8192]> l)]) as H3
    by repeat constructor.
  split; [reflexivity|]. split; [exact H1|]. split; [exact H2|].
  split; [exact H3|]. split; [simpl; lia|]. split; [by eexists|].
  split; [reflexivity|].
  exact (protect_linearizable {| m_cell := Some 0%nat |} 0 0 _
           {| m_acquire_list := [sentinel]; atomics := [4096];
              m_instance := None |} eq_refl H1 H2 H3 (Nat.lt_0_succ 0)
           (ex_intro _ 4096 eq_refl)).
Defined.

(** ** How protection and reclamation compose *)

Lemma state_of_protecting_real (p : ptr) :
  state_of p = PROTECTING p → p ≠ nullptr ∧ p ≠ sentinel ∧ p ≠ reset.
Proof.
  intros H%state_of_protecting_hazard. by apply is_hazard_spec in H as [_ ?].
Qed.

(** X9. The life of one protection, one thread after the other: once
    [protect] has returned the address [p] of a retired object, a pass of
    [delete_hazards] over a queue that contains [p] keeps [p] and does not
    delete it; after [reset_protection()], and no other cell holding [p],
    the next pass deletes [p] and drops it from the queue; a later pass
    over what is left does not delete [p] again. *)
Theorem protection_lifecycle (max_objects : nat) (hp : hazard_pointer)
    (c src : nat) (st : shared) (p : ptr) (buf : list ptr) :
  length (m_acquire_list st) = max_objects →
  m_cell hp = Some c →
  (c < max_objects)%nat →
  atomics st !! src = Some p →
  state_of p = PROTECTING p →
  (∀ j, j ≠ c → m_acquire_list st !! j ≠ Some p) →
  p ∈ buf →
  ∃ kept1 st1 tr1 kept2 st2 tr2 kept3 tr3,
    run (protect 1 hp src;; delete_hazards max_objects buf) st =
      (Done kept1, st1, tr1) ∧
    p ∈ kept1 ∧ (p ∉ deleted tr1) ∧
    run (reset_protection hp;; delete_hazards max_objects kept1) st1 =
      (Done kept2, st2, tr2) ∧
    (p ∉ kept2) ∧ p ∈ deleted tr2 ∧
    m_acquire_list st2 !! c = Some reset ∧
    run (delete_hazards max_objects kept2) st2 = (Done kept3, st2, tr3) ∧
    p ∉ deleted tr3.
Proof.
  intros Hlen Hcell Hc Hsrc Hp Hothers Hin.
  destruct (state_of_protecting_real p Hp) as (Hn & Hs & Hr).
  set (stA := set_cells (λ l, <[c:=p]> l) st).
  set (stB := set_cells (λ l, <[c:=reset]> l) stA).
  assert (length (m_acquire_list stA) = max_objects) as HlenA
    by (unfold stA; by rewrite cells_set_cells, length_insert).
  assert (length (m_acquire_list stB) = max_objects) as HlenB
    by (unfold stB; by rewrite cells_set_cells, length_insert).
  assert (holds_hazard (m_acquire_list stA) p) as HhA.
  { split; [|done]. apply (list_elem_of_lookup_2 _ c).
    unfold stA. rewrite cells_set_cells. apply list_lookup_insert_eq. lia. }
  assert (¬ holds_hazard (m_acquire_list stB) p) as HhB.
  { intros [(j & Hj)%list_elem_of_lookup_1 _].
    unfold stB, stA in Hj. rewrite !cells_set_cells in Hj.
    destruct (decide (j = c)) as [->|Hne].
    - rewrite list_lookup_insert_eq in Hj by (rewrite length_insert; lia).
      congruence.
    - rewrite !list_lookup_insert_ne in Hj by done. by apply (Hothers j). }
  destruct (delete_hazards_run max_objects stA buf HlenA)
    as (trA & HrunA & HdelA & HkeptA & HgoneA).
  set (kept1 := (reclaim_pass
                   (λ q, bool_decide (holds_hazard (m_acquire_list stA) q))
                   (length buf) buf 0).1) in *.
  destruct (delete_hazards_run max_objects stB kept1 HlenB)
    as (trB & HrunB & HdelB & HkeptB & HgoneB).
  set (kept2 := (reclaim_pass
                   (λ q, bool_decide (holds_hazard (m_acquire_list stB) q))
                   (length kept1) kept1 0).1) in *.
  destruct (delete_hazards_run max_objects stB kept2 HlenB)
    as (trC & HrunC & HdelC & HkeptC & HgoneC).
  assert (p ∈ kept1) as Hin1.
  { rewrite HkeptA. by apply list_elem_of_filter. }
  assert (p ∉ kept2) as Hout2.
  { rewrite HkeptB. by intros [? _]%list_elem_of_filter. }
  eexists kept1, stA, _, kept2, stB, _, _, trC.
  split; [|split; [done|split; [|split; [|split; [done|split; [|split;
    [|split; [exact HrunC|]]]]]]]].
  - rewrite run_bind, (protect_run 0 hp c src st p) by (done || lia).
    fold stA. cbn beta. rewrite HrunA. reflexivity.
  - unfold prepend. cbn [snd]. rewrite deleted_app, HdelA, HgoneA.
    cbn [deleted omap fst app]. by intros [? _]%list_elem_of_filter.
  - unfold run at 1.
    rewrite (reset_protection_run _ hp c)
      by (done || (cbn [interfere]; lia)).
    cbn [interfere tail]. fold stB.
    fold (run (delete_hazards max_objects kept1) stB). rewrite HrunB.
    reflexivity.
  - cbn [snd].
    change (deleted ((EvCellStore c reset release, stB) :: trB))
      with (deleted trB).
    rewrite HdelB, HgoneB. by apply list_elem_of_filter.
  - unfold stB. rewrite cells_set_cells. apply list_lookup_insert_eq. lia.
  - rewrite HdelC, HgoneC. intros [_ ?]%list_elem_of_filter. done.
Qed.

Lemma protection_lifecycle_witness :
  let hp := {| m_cell := Some 1%nat |} in
  let st := {| m_acquire_list := [reset; sentinel]; atomics := [4096];
               m_instance := None |} in
  length (m_acquire_list st) = 2%nat ∧
  m_cell hp = Some 1%nat ∧
  atomics st !! 0%nat = Some 4096 ∧
  state_of 4096 = PROTECTING 4096 ∧
  4096 ∈ [8192; 4096] ∧
  deleted (run (protect 1 hp 0;; delete_hazards 2 [8192; 4096]) st).2 = [8192] ∧
  ∃ kept1 st1 tr1 kept2 st2 tr2,
    run (protect 1 hp 0;; delete_hazards 2 [8192; 4096]) st =
      (Done kept1, st1, tr1) ∧
    4096 ∈ kept1 ∧
    run (reset_protection hp;; delete_hazards 2 kept1) st1 =
      (Done kept2, st2, tr2) ∧
    4096 ∈ deleted tr2.
Proof.
  cbv zeta. do 4 (split; [reflexivity|]).
  assert (4096 ∈ [8192; 4096]) as Hin by (right; left).
  split; [exact Hin|]. split; [reflexivity|].
  edestruct (protection_lifecycle 2 {| m_cell := Some 1%nat |} 1 0
               {| m_acquire_list := [reset; sentinel]; atomics := [4096];
                  m_instance := None |} 4096 [8192; 4096])
    as (kept1 & st1 & tr1 & kept2 & st2 & tr2 & kept3 & tr3 &
        H1 & H2 & _ & H3 & _ & H4 & _);
    [reflexivity|reflexivity|lia|reflexivity|reflexivity| |exact Hin|].
  - intros [|[|j]] Hj; [by vm_compute|done|done].
  - exists kept1, st1, tr1, kept2, st2, tr2. by repeat split.
Defined.

(** ** The retire queue over many retires *)

Lemma deleted_tl_init st tl : deleted (tl_init st tl) = [].
Proof. by destruct tl. Qed.

(** One [retire], run alone: the queue and the deletions together are the
    old queue and the new entry; a pass, when one runs, leaves the hazarded
    entries. *)
Lemma retire_step (max_objects : nat) (st : shared) (data : ptr)
    (tl : option retire_buffer) :
  2 * Z.of_nat max_objects < 2 ^ uintptr_bits →
  length (m_acquire_list st) = max_objects →
  let rb := current_buffer st tl in
  let queue := buffer rb ++ [data] in
  ∃ queue' tr,
    run (retire max_objects data tl) st =
      (Done (Some {| buffer := queue'; domain_ref := domain_ref rb |}), st, tr) ∧
    queue' ++ deleted tr ≡ₚ queue ∧
    ((length queue < 2 * max_objects)%nat → queue' = queue ∧ deleted tr = []) ∧
    ((2 * max_objects ≤ length queue)%nat →
       queue' ≡ₚ filter (holds_hazard (m_acquire_list st)) queue).
Proof.
  intros Hfits Hlen rb queue.
  pose proof (retire_run max_objects st data tl Hfits Hlen) as Hret.
  cbv zeta in Hret. fold rb in Hret. fold queue in Hret.
  case_decide as Hq.
  - destruct Hret as (queue' & tr & Hpass & Hret).
    destruct (delete_hazards_run max_objects st queue Hlen)
      as (tr' & Hrun & Hdel & Hkept & Hgone).
    rewrite Hrun in Hpass. injection Hpass as <- <-.
    eexists _, _. split; [exact Hret|].
    rewrite deleted_app, deleted_tl_init, app_nil_l, Hdel.
    split; [|split; [lia|done]].
    rewrite Hkept, Hgone. apply filter_app_complement.
  - exists queue, (tl_init st tl). split; [exact Hret|].
    rewrite deleted_tl_init, app_nil_r. split; [done|]. split; [done|lia].
Qed.

(** X10. Any sequence of [retire] calls by one thread, passes included: at
    the end the retire queue together with the objects deleted so far is
    exactly the old queue together with the objects retired.  Nothing
    retired is lost, nothing is deleted that was not retired, and nothing
    is deleted more often than it was retired; the cells are not written. *)
Theorem retire_all_conserves (max_objects : nat) (st : shared)
    (ps : list ptr) (tl : option retire_buffer) :
  2 * Z.of_nat max_objects < 2 ^ uintptr_bits →
  length (m_acquire_list st) = max_objects →
  ∃ tl' tr,
    run (retire_all max_objects ps tl) st = (Done tl', st, tr) ∧
    buffer (current_buffer st tl') ++ deleted tr ≡ₚ
      buffer (current_buffer st tl) ++ ps ∧
    domain_ref (current_buffer st tl') = domain_ref (current_buffer st tl).
Proof.
  intros Hfits Hlen. revert tl; induction ps as [|p ps IH]; intros tl.
  - exists tl, []. split; [done|]. by rewrite !app_nil_r.
  - destruct (retire_step max_objects st p tl Hfits Hlen)
      as (q1 & tr1 & Hrun1 & Hperm1 & _).
    destruct (IH (Some {| buffer := q1;
                          domain_ref := domain_ref (current_buffer st tl) |}))
      as (tl' & tr2 & Hrun2 & Hperm2 & Hdom).
    exists tl', (tr1 ++ tr2). cbn [retire_all].
    rewrite run_bind, Hrun1, Hrun2. split; [done|]. split; [|done].
    cbn [current_buffer buffer] in Hperm2.
    rewrite deleted_app, (Permutation_app_comm (deleted tr1)), (assoc_L (++)).
    rewrite Hperm2, <- (assoc_L (++)), (Permutation_app_comm ps).
    rewrite (assoc_L (++)), Hperm1, <- (assoc_L (++)). done.
Qed.

Lemma retire_all_conserves_witness :
  let st := {| m_acquire_list := [20]; atomics := [];
               m_instance := Some 1%nat |} in
  2 * Z.of_nat 1 < 2 ^ uintptr_bits ∧
  length (m_acquire_list st) = 1%nat ∧
  (∃ tr,
     run (retire_all 1 [10; 20; 30; 40; 50] None) st =
       (Done (Some {| buffer := [20]; domain_ref := Some 1%nat |}), st, tr) ∧
     deleted tr = [10; 30; 40; 50]) ∧
  ∃ tl' tr,
    run (retire_all 1 [10; 20; 30; 40; 50] None) st = (Done tl', st, tr) ∧
    buffer (current_buffer st tl') ++ deleted tr ≡ₚ [10; 20; 30; 40; 50].
Proof.
  cbv zeta. split; [by vm_compute|]. split; [reflexivity|].
  split; [eexists; split; reflexivity|].
  destruct (retire_all_conserves 1
              {| m_acquire_list := [20]; atomics := [];
                 m_instance := Some 1%nat |} [10; 20; 30; 40; 50] None
              eq_refl eq_refl) as (tl' & tr & Hrun & Hperm & _).
  exists tl', tr. split; [exact Hrun|exact Hperm].
Defined.

Lemma hazarded_at_most_cells (cells q : list ptr) :
  NoDup q → (length (filter (holds_hazard cells) q) ≤ length cells)%nat.
Proof.
  intros Hnd. apply submseteq_length, NoDup_submseteq.
  - by apply NoDup_filter.
  - by intros x [[? _] _]%list_elem_of_filter.
Qed.

(** The bound on the retire queue needs the cells to stand still during a
    pass.  One cell holding 10, the thread retires 10 and 20; between the
    two scans of the pass another thread republishes 20 in the cell: both
    scans find their address, nothing is deleted, and the queue is left with
    [2 * max_objects] entries. *)
Lemma retire_queue_republished :
  let st := {| m_acquire_list := [10]; atomics := [];
               m_instance := Some 1%nat |} in
  let st' := {| m_acquire_list := [20]; atomics := [];
                m_instance := Some 1%nat |} in
  let env := [id; id; set_cells (λ l, <[0%nat:=20]> l)] in
  exec (retire_all 1 [10; 20] None) env st =
    (Done (Some {| buffer := [10; 20]; domain_ref := Some 1%nat |}), st',
     [(EvInstanceLoad (Some 1%nat), st);
      (EvCellLoad 0 seq_cst 10, st);
      (EvCellLoad 0 seq_cst 20, st')]).
Proof. reflexivity. Qed.

(** X11. The retire queue stays short when no other thread acts in between:
    in a domain with at least one cell, a thread that retires pairwise
    distinct objects in a run without steps of other threads ([run], the
    cells holding whatever they held at the start) never has
    [2 * max_objects] entries or more in its queue after a [retire], so not
    more than the [3 * max_objects] reserved for it, and the queue stays free
    of duplicates.  (With cells that change during a pass the bound does not
    hold, see the lemma above.) *)
Theorem retire_queue_bounded (max_objects : nat) (st : shared)
    (ps : list ptr) (tl : option retire_buffer) :
  2 * Z.of_nat max_objects < 2 ^ uintptr_bits →
  length (m_acquire_list st) = max_objects →
  (0 < max_objects)%nat →
  NoDup (buffer (current_buffer st tl) ++ ps) →
  (length (buffer (current_buffer st tl)) < 2 * max_objects)%nat →
  ∃ tl' tr,
    run (retire_all max_objects ps tl) st = (Done tl', st, tr) ∧
    (length (buffer (current_buffer st tl')) < 2 * max_objects)%nat ∧
    (length (buffer (current_buffer st tl')) ≤ 3 * max_objects)%nat ∧
    NoDup (buffer (current_buffer st tl')).
Proof.
  intros Hfits Hlen Hpos. revert tl; induction ps as [|p ps IH];
    intros tl Hnd Hshort.
  - exists tl, []. rewrite app_nil_r in Hnd. repeat split; [done|lia|done].
  - destruct (retire_step max_objects st p tl Hfits Hlen)
      as (q1 & tr1 & Hrun1 & Hperm1 & Hbelow & Hpass).
    assert (NoDup ((q1 ++ deleted tr1) ++ ps)) as Hnd1.
    { rewrite Hperm1, <- (assoc_L (++)). done. }
    apply NoDup_app in Hnd1 as (Hnd1 & Hdisj & Hps).
    apply NoDup_app in Hnd1 as (Hq1 & _ & _).
    destruct (IH (Some {| buffer := q1;
                          domain_ref := domain_ref (current_buffer st tl) |}))
      as (tl' & tr2 & Hrun2 & Hb1 & Hb2 & Hnd').
    + cbn [current_buffer buffer]. apply NoDup_app. split; [done|].
      split; [|done]. intros x Hx. apply Hdisj, elem_of_app. by left.
    + cbn [current_buffer buffer].
      destruct (decide (length (buffer (current_buffer st tl) ++ [p])
                        < 2 * max_objects)%nat) as [Hlt|Hge].
      * by destruct (Hbelow Hlt) as [-> _].
      * rewrite Hpass by lia.
        eapply Nat.le_lt_trans; [apply hazarded_at_most_cells|lia].
        assert (NoDup ((buffer (current_buffer st tl) ++ [p]) ++ ps)) as H
          by (by rewrite <- (assoc_L (++))).
        by apply NoDup_app in H as [? _].
    + exists tl', (tr1 ++ tr2). cbn [retire_all].
      rewrite run_bind, Hrun1, Hrun2. done.
Qed.

Lemma retire_queue_bounded_witness :
  let st := {| m_acquire_list := [20; 30]; atomics := [];
               m_instance := Some 1%nat |} in
  let ps := [10; 20; 30; 40; 50; 60] in
  2 * Z.of_nat 2 < 2 ^ uintptr_bits ∧
  length (m_acquire_list st) = 2%nat ∧
  (0 < 2)%nat ∧
  NoDup (buffer (current_buffer st None) ++ ps) ∧
  (length (buffer (current_buffer st None)) < 2 * 2)%nat ∧
  (run (retire_all 2 ps None) st).1 =
    (Done (Some {| buffer := [30; 20]; domain_ref := Some 1%nat |}), st)
  ∧ ∃ tl' tr,
      run (retire_all 2 ps None) st = (Done tl', st, tr) ∧
      (length (buffer (current_buffer st tl')) < 2 * 2)%nat.
Proof.
  cbv zeta.
  assert (NoDup ([] ++ [10; 20; 30; 40; 50; 60] : list Z)) as Hnd.
  { simpl. apply (bool_decide_unpack _). by vm_compute. }
  split; [by vm_compute|]. split; [reflexivity|]. split; [lia|].
  split; [exact Hnd|]. split; [simpl; lia|].
  destruct (retire_queue_bounded 2
              {| m_acquire_list := [20; 30]; atomics := [];
                 m_instance := Some 1%nat |} [10; 20; 30; 40; 50; 60] None
              eq_refl eq_refl) as (tl' & tr & Hrun & Hshort & _);
    [lia|exact Hnd|simpl; lia|].
  split; [|exists tl', tr; by split].
  vm_compute. reflexivity.
Defined.

(** ** Progress of capture, and of reclamation *)

Lemma capture_loop_progress (c : nat) (n k : nat) env st :
  fixed_array env →
  keeps_published c nullptr env →
  m_acquire_list st !! c = Some nullptr →
  (k ≤ c < k + n)%nat →
  (k + n ≤ length (m_acquire_list st))%nat →
  ∃ i st' tr,
    exec (capture_loop (seq k n)) env st = (Done i, st', tr) ∧
    (k ≤ i ≤ c)%nat ∧
    m_acquire_list st' !! i = Some sentinel.
Proof.
  revert k env st; induction n as [|n IH];
    intros k env st Henv Hfree Hc Hk Hlen; [lia|].
  cbn [seq capture_loop]. rewrite exec_cell_load.
  pose proof (fixed_array_interfere env st Henv) as Hl.
  pose proof (keeps_published_interfere _ _ _ _ Hfree Hc) as Hc1.
  pose proof (fixed_array_tail _ Henv) as Henv1.
  pose proof (keeps_published_tail _ _ _ Hfree) as Hfree1.
  destruct (lookup_lt_is_Some_2 (m_acquire_list (interfere env st)) k)
    as [v Hv]; [lia|].
  rewrite Hv. destruct (v =? nullptr) eqn:E.
  - rewrite exec_cas.
    pose proof (fixed_array_interfere (tail env) (interfere env st) Henv1) as Hl1.
    pose proof (keeps_published_interfere _ _ _ _ Hfree1 Hc1) as Hc2.
    destruct (lookup_lt_is_Some_2
                (m_acquire_list (interfere (tail env) (interfere env st))) k)
      as [w Hw]; [lia|].
    rewrite Hw. destruct (w =? nullptr) eqn:E'.
    + eexists k, _, _. unfold emit. cbn [fst snd exec mret prog_ret].
      split; [reflexivity|]. split; [lia|].
      rewrite cells_set_cells. apply list_lookup_insert_eq. lia.
    + assert (k ≠ c) as Hne.
      { intros ->. rewrite Hc2 in Hw. injection Hw as <-. done. }
      destruct (IH (S k) (tail (tail env))
                  (interfere (tail env) (interfere env st)))
        as (i & st' & tr & Hrun & Hi & Hs);
        [by apply fixed_array_tail|by apply keeps_published_tail|done|lia|lia|].
      rewrite Hrun. eexists i, _, _. unfold emit. cbn [fst snd].
      split; [reflexivity|]. split; [lia|done].
  - assert (k ≠ c) as Hne.
    { intros ->. rewrite Hc1 in Hv. injection Hv as <-. done. }
    destruct (IH (S k) (tail env) (interfere env st))
      as (i & st' & tr & Hrun & Hi & Hs); [done|done|done|lia|lia|].
    rewrite Hrun. eexists i, _, _. unfold emit. cbn [fst snd].
    split; [reflexivity|]. split; [lia|done].
Qed.

(** X12. [capture_cell] does not abort while a cell stays FREE: if cell [c]
    is null and no other thread takes it during the sweep, the sweep claims
    a cell, [c] or one before it, whatever else the other threads do. *)
Theorem capture_cell_progress (max_objects : nat) (c : nat)
    (env : interference) (st : shared) :
  fixed_array env →
  length (m_acquire_list st) = max_objects →
  m_acquire_list st !! c = Some nullptr →
  keeps_published c nullptr env →
  ∃ i st' tr,
    exec (capture_cell max_objects) env st = (Done i, st', tr) ∧
    (i ≤ c)%nat ∧
    m_acquire_list st' !! i = Some sentinel.
Proof.
  intros Henv Hlen Hc Hfree. pose proof (lookup_lt_Some _ _ _ Hc) as Hlt.
  destruct (capture_loop_progress c max_objects 0 env st)
    as (i & st' & tr & Hrun & Hi & Hs); [done|done|done|lia|lia|].
  exists i, st', tr. split; [exact Hrun|]. split; [lia|done].
Qed.

Lemma capture_cell_progress_witness :
  let st := {| m_acquire_list := [nullptr; nullptr]; atomics := [];
               m_instance := None |} in
  let env := [id; set_cells (λ l, <[0%nat:=sentinel]> l)] in
  fixed_array env ∧
  length (m_acquire_list st) = 2%nat ∧
  m_acquire_list st !! 1%nat = Some nullptr ∧
  keeps_published 1 nullptr env ∧
  (exec (capture_cell 2) env st).1.1 = Done 1%nat ∧
  ∃ i st' tr,
    exec (capture_cell 2) env st = (Done i, st', tr) ∧ (i ≤ 1)%nat ∧
    m_acquire_list st' !! i = Some sentinel.
Proof.
  cbv zeta.
  assert (fixed_array [id; set_cells (λ l, <[0%nat:=sentinel]> l)]) as H1.
  { repeat constructor. intros s. by rewrite cells_set_cells, length_insert. }
  assert (keeps_published 1 nullptr
            [id; set_cells (λ l, <[0%nat:=sentinel]> l)]) as H2.
  { repeat constructor; [done|]. intros s Hs.
    by rewrite cells_set_cells, list_lookup_insert_ne. }
  split; [exact H1|]. split; [reflexivity|]. split; [reflexivity|].
  split; [exact H2|]. split; [reflexivity|].
  exact (capture_cell_progress 2 1 _
           {| m_acquire_list := [nullptr; nullptr]; atomics := [];
              m_instance := None |} H1 eq_refl eq_refl H2).
Defined.

Lemma never_published_interfere p env st :
  never_published p env →
  p ∉ m_acquire_list st → p ∉ m_acquire_list (interfere env st).
Proof. destruct env as [|f env]; [done|]. intros H. inversion H; auto. Qed.

Lemma never_published_tail p env :
  never_published p env → never_published p (tail env).
Proof. destruct env as [|f env]; [done|]. intros H. by inversion H. Qed.

Lemma never_published_drop p n env :
  never_published p env → never_published p (drop n env).
Proof. apply Forall_drop. Qed.

(** A scan for an address that is in no cell, and that nobody publishes,
    does not answer [true]. *)
Lemma scan_loop_unpublished (p : ptr) (cells : list nat) env st out st' tr :
  never_published p env →
  p ∉ m_acquire_list st →
  exec (scan_loop cells p) env st = (out, st', tr) →
  out ≠ Done true.
Proof.
  revert env st out st' tr; induction cells as [|cell rest IH];
    intros env st out st' tr Henv Hp.
  - simpl. by intros [= <- <- <-].
  - cbn [scan_loop]. rewrite exec_cell_load.
    pose proof (never_published_interfere _ _ _ Henv Hp) as Hp1.
    destruct (m_acquire_list (interfere env st) !! cell) as [h|] eqn:Hh;
      [|by intros [= <- <- <-]].
    destruct (is_hazard h p) eqn:E.
    + apply is_hazard_spec in E as [-> _].
      destruct Hp1. by eapply list_elem_of_lookup_2.
    + destruct (exec (scan_loop rest p) _ _) as [[o s] t] eqn:Hrest.
      apply IH in Hrest; [|by apply never_published_tail|done].
      unfold emit. simpl. by intros [= <- <- <-].
Qed.

(** A scan, for whatever address, does not publish anything itself. *)
Lemma scan_loop_never_publishes (q : ptr) (cells : list nat) env st out st' tr :
  exec (scan_loop cells q) env st = (out, st', tr) →
  ∀ p, never_published p env → p ∉ m_acquire_list st →
       (p ∉ m_acquire_list st') ∧ never_published p (drop (length tr) env).
Proof.
  revert env st out st' tr; induction cells as [|cell rest IH];
    intros env st out st' tr.
  - simpl. intros [= <- <- <-] p Henv Hp. by rewrite drop_0.
  - cbn [scan_loop]. rewrite exec_cell_load. intros Hrun p Henv Hp.
    pose proof (never_published_interfere _ _ _ Henv Hp) as Hp1.
    destruct (m_acquire_list (interfere env st) !! cell) as [h|] eqn:Hh.
    + destruct (is_hazard h q).
      * simpl in Hrun. injection Hrun as <- <- <-.
        split; [done|]. by apply never_published_drop.
      * destruct (exec (scan_loop rest q) _ _) as [[o s] t] eqn:Hrest.
        unfold emit in Hrun. simpl in Hrun. injection Hrun as <- <- <-.
        destruct (IH _ _ _ _ _ Hrest p) as [? ?];
          [by apply never_published_tail|done|].
        split; [done|]. simpl. by rewrite drop_S_tail.
    + injection Hrun as <- <- <-. split; [done|]. by rewrite drop_0.
Qed.

Lemma delete_hazards_from_unpublished (max_objects : nat) (p : ptr)
    (dist : nat) (buf : list ptr) (it : nat) env st kept st' tr :
  never_published p env →
  p ∉ m_acquire_list st →
  p ∉ take it buf →
  exec (delete_hazards_from max_objects dist buf it) env st =
    (Done kept, st', tr) →
  p ∉ kept.
Proof.
  revert buf it env st kept st' tr; induction dist as [|d IH];
    intros buf it env st kept st' tr Henv Hp Htake.
  - simpl. by intros [= <- <- <-].
  - cbn [delete_hazards_from].
    destruct (buf !! it) as [q|] eqn:Hq; [|done].
    rewrite exec_bind. unfold scan_for_hazard.
    destruct (exec (scan_loop (seq 0 max_objects) q) env st)
      as [[[b|f] st1] tr1] eqn:Hscan; [|done].
    destruct (scan_loop_never_publishes _ _ _ _ _ _ _ Hscan p Henv Hp)
      as [Hp1 Henv1].
    unfold prepend. destruct b.
    + assert (q ≠ p) as Hne.
      { intros ->. by apply scan_loop_unpublished in Hscan. }
      destruct (exec (delete_hazards_from max_objects d buf (S it)) _ _)
        as [[o s] t] eqn:Hrest.
      cbn [fst snd]. intros [= -> <- <-].
      eapply IH in Hrest; [done|done|done|].
      rewrite (take_S_r _ _ _ Hq). rewrite not_elem_of_app.
      split; [done|]. by intros ->%list_elem_of_singleton.
    + rewrite exec_delete.
      pose proof (never_published_interfere _ _ _ Henv1 Hp1) as Hp2.
      pose proof (never_published_tail _ _ Henv1) as Henv2.
      case_decide as Hd.
      * destruct (buf !! (it + d)%nat) as [x|] eqn:Hx; [|done].
        destruct (exec (delete_hazards_from max_objects d (<[it:=x]> buf) it) _ _)
          as [[o s] t] eqn:Hrest.
        unfold emit. cbn [fst snd]. intros [= -> <- <-].
        eapply IH in Hrest; [done|done|done|].
        by rewrite take_insert_ge.
      * destruct (exec (delete_hazards_from max_objects d buf it) _ _)
          as [[o s] t] eqn:Hrest.
        unfold emit. cbn [fst snd]. intros [= -> <- <-].
        by eapply IH in Hrest.
Qed.

(** X13. An object that no cell holds and that nobody publishes while the
    pass runs is deleted by the pass, whatever else the other threads do:
    [delete_hazards] on a queue that contains it returns a queue without
    it, and it is among the objects deleted. *)
Theorem delete_hazards_reclaims_unprotected (max_objects : nat)
    (buf : list ptr) (p : ptr) (env : interference) (st : shared) :
  fixed_array env →
  length (m_acquire_list st) = max_objects →
  never_published p env →
  p ∉ m_acquire_list st →
  p ∈ buf →
  ∃ kept st' tr,
    exec (delete_hazards max_objects buf) env st = (Done kept, st', tr) ∧
    (p ∉ kept) ∧
    p ∈ deleted tr.
Proof.
  intros Henv Hlen Hnever Hp Hin.
  destruct (delete_hazards_from_exec max_objects (length buf) buf 0 env st
              Henv Hlen)
    as (kept & st' & tr & Hrun & _ & Hperm & _); [simpl; lia|].
  exists kept, st', tr. split; [exact Hrun|].
  assert (p ∉ kept) as Hout.
  { eapply delete_hazards_from_unpublished; [exact Hnever|exact Hp| |exact Hrun].
    rewrite take_0. apply not_elem_of_nil. }
  split; [done|].
  rewrite take_ge in Hperm by (simpl; lia).
  rewrite <- Hperm in Hin. apply elem_of_app in Hin as [?|?]; done.
Qed.

Lemma delete_hazards_reclaims_unprotected_witness :
  let st := {| m_acquire_list := [reset; 20]; atomics := [];
               m_instance := None |} in
  let env := [id; set_cells (λ l, <[0%nat:=30]> l)] in
  fixed_array env ∧
  length (m_acquire_list st) = 2%nat ∧
  never_published 10 env ∧
  (10 ∉ m_acquire_list st) ∧
  10 ∈ [20; 10; 30] ∧
  ∃ kept st' tr,
    exec (delete_hazards 2 [20; 10; 30]) env st = (Done kept, st', tr) ∧
    (10 ∉ kept) ∧
    10 ∈ deleted tr.
Proof.
  cbv zeta.
  assert (fixed_array [id; set_cells (λ l, <[0%nat:=30]> l)]) as H1.
  { repeat constructor. intros s. by rewrite cells_set_cells, length_insert. }
  assert (never_published 10 [id; set_cells (λ l, <[0%nat:=30]> l)]) as H2.
  { repeat constructor; [done|]. intros s Hs. rewrite cells_set_cells.
    intros (i & Hi)%list_elem_of_lookup_1.
    destruct (decide (i = 0%nat)) as [->|Hne].
    - destruct (m_acquire_list s); simpl in Hi; [done|]. by injection Hi.
    - rewrite list_lookup_insert_ne in Hi by done.
      by apply Hs, (list_elem_of_lookup_2 _ i). }
  assert (10 ∉ [reset; 20]) as H3.
  { apply (bool_decide_unpack _). by vm_compute. }
  assert (10 ∈ [20; 10; 30]) as H4 by (right; left).
  split; [exact H1|]. split; [reflexivity|]. split; [exact H2|].
  split; [exact H3|]. split; [exact H4|].
  exact (delete_hazards_reclaims_unprotected 2 [20; 10; 30] 10 _
           {| m_acquire_list := [reset; 20]; atomics := [];
              m_instance := None |} H1 eq_refl H2 H3 H4).
Defined.

(** ** Explicit changes of a handle's protection *)

(** X14. The overloads of [reset_protection] on a handle that owns cell
    [c]: [reset_protection(nullptr)] is [reset_protection()], one release
    store of RESET; afterwards the cell protects nothing (whatever a scan
    still finds is held by another cell) and is still not capturable.
    [reset_protection(p)] with a real address is one seq_cst store of [p],
    after which a scan for [p] answers [true]. *)
Theorem reset_protection_overloads (max_objects : nat) (hp : hazard_pointer)
    (c : nat) (st : shared) (p : ptr) :
  length (m_acquire_list st) = max_objects →
  m_cell hp = Some c →
  (c < max_objects)%nat →
  state_of p = PROTECTING p →
  let cleared := set_cells (λ l, <[c:=reset]> l) st in
  let published := set_cells (λ l, <[c:=p]> l) st in
  run (reset_protection_nullptr hp) st =
    (Done tt, cleared, [(EvCellStore c reset release, cleared)]) ∧
  run (reset_protection hp) st = run (reset_protection_nullptr hp) st ∧
  (∀ q, holds_hazard (m_acquire_list cleared) q →
        ∃ j, j ≠ c ∧ m_acquire_list st !! j = Some q) ∧
  (∀ out st' tr,
     run (capture_cell max_objects) cleared = (out, st', tr) → out ≠ Done c) ∧
  run (reset_protection_ptr hp p) st =
    (Done tt, published, [(EvCellStore c p seq_cst, published)]) ∧
  ∃ tr, run (scan_for_hazard max_objects p) published =
          (Done true, published, tr).
Proof.
  intros Hlen Hcell Hc Hp cleared published.
  destruct (state_of_protecting_real p Hp) as (Hn & Hs & Hr).
  split; [|split; [done|split; [|split; [|split]]]].
  - unfold reset_protection_nullptr, reset_protection, run.
    rewrite Hcell. cbn [cell_store exec interfere tail].
    rewrite decide_True by lia. reflexivity.
  - intros q [(j & Hj)%list_elem_of_lookup_1 (_ & _ & Hqr)].
    unfold cleared in Hj. rewrite cells_set_cells in Hj.
    destruct (decide (j = c)) as [->|Hne].
    + rewrite list_lookup_insert_eq in Hj by lia. congruence.
    + exists j. split; [done|]. by rewrite list_lookup_insert_ne in Hj.
  - intros out st' tr Hrun.
    apply (capture_loop_respects _ c) in Hrun as [? _]; [done|constructor|].
    exists reset. split; [|apply reset_not_null].
    unfold cleared. rewrite cells_set_cells. apply list_lookup_insert_eq. lia.
  - unfold reset_protection_ptr, run.
    rewrite Hcell. cbn [cell_store exec interfere tail].
    rewrite decide_True by lia. reflexivity.
  - destruct (scan_for_hazard_run max_objects published p) as (tr & Hrun & _).
    { unfold published. by rewrite cells_set_cells, length_insert. }
    exists tr. rewrite Hrun. rewrite bool_decide_eq_true_2; [done|].
    split; [|done]. apply (list_elem_of_lookup_2 _ c).
    unfold published. rewrite cells_set_cells. apply list_lookup_insert_eq. lia.
Qed.

Lemma reset_protection_overloads_witness :
  let hp := {| m_cell := Some 0%nat |} in
  let st := {| m_acquire_list := [4096; nullptr]; atomics := [];
               m_instance := None |} in
  length (m_acquire_list st) = 2%nat ∧
  m_cell hp = Some 0%nat ∧
  (0 < 2)%nat ∧
  state_of 8192 = PROTECTING 8192 ∧
  run (reset_protection_nullptr hp) st =
    (Done tt,
     {| m_acquire_list := [reset; nullptr]; atomics := []; m_instance := None |},
     [(EvCellStore 0 reset release,
       {| m_acquire_list := [reset; nullptr]; atomics := [];
          m_instance := None |})]) ∧
  ∃ tr,
    run (scan_for_hazard 2 8192)
        {| m_acquire_list := [8192; nullptr]; atomics := []; m_instance := None |} =
      (Done true,
       {| m_acquire_list := [8192; nullptr]; atomics := []; m_instance := None |},
       tr).
Proof.
  cbv zeta. split; [reflexivity|]. split; [reflexivity|]. split; [lia|].
  split; [reflexivity|].
  destruct (reset_protection_overloads 2 {| m_cell := Some 0%nat |} 0
              {| m_acquire_list := [4096; nullptr]; atomics := [];
                 m_instance := None |} 8192 eq_refl eq_refl)
    as (H1 & _ & _ & _ & _ & H2); [lia|reflexivity|].
  split; [exact H1|exact H2].
Defined.
